(** * drum-sequencer: the sequencer API of [index.js], embedded and verified

    The three classes of the "Sequencer API" section of [index.js]
    ([Sound], [Channel], [Sequencer]) are embedded as records with one
    function per method.  What the classes do to the browser is kept in an
    explicit environment [Env]: the table of pending [setTimeout] /
    [setInterval] timers and the chronological trace of the calls that are
    observable from outside ([document.dispatchEvent] and [audio.play()]).
    When the pending timers run is said by a clock on top of that table.

    JavaScript numbers are IEEE 754 doubles, so tempo, step duration,
    volume and playback rate are primitive [float]s and the arithmetic of
    the source is kept as written.  The beat cursor only ever holds a
    natural number (it starts at 0, is incremented and is reset to 0), so
    it is a [nat]. *)

From Stdlib Require Import Floats Ascii.
From stdpp Require Import gmap strings list fin_maps pretty.

(** ** The browser environment *)

(** Identity of a [Channel] object and of the [Sound] it owns: its index in
    [sequencer.channels].  The arrow functions handed to the timers close
    over [this]; the identity says which object that is. *)
Abbreviation ref := nat (only parsing).

(** The two arrow functions of the source that are handed to a timer. *)
Inductive callback :=
| StopSound (owner : ref)    (* () => this.stop()         (Sound.play)   *)
| PlayBeat (owner : ref).    (* () => { this.playBeat() } (Channel.loop) *)

(** A pending timer: the callback and the delay the code passed, and whether
    it came from [setInterval] (repeating) or from [setTimeout]. *)
Record Timer := {
  handler : callback;
  delay : float;
  repeating : bool
}.

(** [new Event(eventName)] *)
Record Event := { type : string }.

(** Calls observable from outside the sequencer. *)
Inductive effect :=
| DispatchEvent (e : Event)               (* document.dispatchEvent(e) *)
| AudioPlay (owner : ref) (level : float). (* audio.play(), at the volume the element has *)

Record Env := {
  timers : gmap nat Timer;
  next_id : nat;
  trace : list effect
}.

Definition emit (x : effect) (env : Env) : Env :=
  {| timers := timers env; next_id := next_id env; trace := trace env ++ [x] |}.

Definition add_timer (t : Timer) (env : Env) : nat * Env :=
  (next_id env,
   {| timers := <[next_id env := t]> (timers env);
      next_id := S (next_id env);
      trace := trace env |}).

Definition setTimeout (f : callback) (ms : float) (env : Env) : nat * Env :=
  add_timer {| handler := f; delay := ms; repeating := false |} env.

Definition setInterval (f : callback) (ms : float) (env : Env) : nat * Env :=
  add_timer {| handler := f; delay := ms; repeating := true |} env.

(** [clearInterval(id)]; [id] is [None] for [undefined], which clears nothing. *)
Definition clearInterval (id : option nat) (env : Env) : Env :=
  match id with
  | Some i => {| timers := delete i (timers env); next_id := next_id env; trace := trace env |}
  | None => env
  end.

Definition dispatchEvent (e : Event) (env : Env) : Env := emit (DispatchEvent e) env.

Definition initial_env : Env := {| timers := ∅; next_id := 1; trace := [] |}.

(** ** class Sound *)

Module Sound.

(** The fields of the [Audio] element that the class reads or writes. *)
Record Audio := {
  src : string;
  playbackRate : float;
  volume : float;
  paused : bool;
  currentTime : float
}.

Record t := {
  audio : Audio;
  name : string
}.

(** [new Audio(url)]: a paused element at position 0, full volume, normal rate. *)
Definition new_Audio (url : string) : Audio :=
  {| src := url; playbackRate := 1; volume := 1; paused := true; currentTime := 0 |}.

(** [set rate (rate) { this.audio.playbackRate = rate }] *)
Definition set_rate (rate : float) (s : t) : t :=
  {| audio := {| src := src (audio s); playbackRate := rate; volume := volume (audio s);
                 paused := paused (audio s); currentTime := currentTime (audio s) |};
     name := name s |}.

(** [set volume (volume) { this.audio.volume = volume }] *)
Definition set_volume (v : float) (s : t) : t :=
  {| audio := {| src := src (audio s); playbackRate := playbackRate (audio s); volume := v;
                 paused := paused (audio s); currentTime := currentTime (audio s) |};
     name := name s |}.

(** [this.audio.pause()] and [this.audio.play()] *)
Definition set_paused (p : bool) (s : t) : t :=
  {| audio := {| src := src (audio s); playbackRate := playbackRate (audio s);
                 volume := volume (audio s); paused := p;
                 currentTime := currentTime (audio s) |};
     name := name s |}.

(** [this.audio.currentTime = time] *)
Definition set_currentTime (time : float) (s : t) : t :=
  {| audio := {| src := src (audio s); playbackRate := playbackRate (audio s);
                 volume := volume (audio s); paused := paused (audio s);
                 currentTime := time |};
     name := name s |}.

(** [constructor (url, name, rate = 1)] *)
Definition new (url name : string) (rate : option float) : t :=
  set_rate (default 1%float rate) {| audio := new_Audio url; name := name |}.

(** [stop ()]: volume to 0 first, then pause, then rewind. *)
Definition stop (s : t) : t :=
  let s1 := set_volume 0 s in
  let s2 := set_paused true s1 in
  set_currentTime 0 s2.

(** [play (duration = 1000, volume = 1)]; [None] is an omitted argument. *)
Definition play (this : ref) (duration volume : option float) (s : t) (env : Env)
  : t * Env :=
  let s1 := set_volume (default 1%float volume) s in
  let s2 := set_paused false s1 in
  let env1 := emit (AudioPlay this (Sound.volume (audio s1))) env in
  let '(_, env2) := setTimeout (StopSound this) (default 1000%float duration - 10)%float env1 in
  (s2, env2).

End Sound.

(** ** class Channel *)

Module Channel.

Record t := {
  sound : Sound.t;
  sequence : list Z;
  beat : nat;
  duration : float;
  events : gmap nat Event;      (* the sparse array [this.events] *)
  interval : option nat         (* [this.interval]; [undefined] until [loop] *)
}.

Definition with_sound (s : Sound.t) (c : t) : t :=
  {| sound := s; sequence := sequence c; beat := beat c; duration := duration c;
     events := events c; interval := interval c |}.

Definition with_sequence (l : list Z) (c : t) : t :=
  {| sound := sound c; sequence := l; beat := beat c; duration := duration c;
     events := events c; interval := interval c |}.

Definition with_beat (b : nat) (c : t) : t :=
  {| sound := sound c; sequence := sequence c; beat := b; duration := duration c;
     events := events c; interval := interval c |}.

Definition with_duration (d : float) (c : t) : t :=
  {| sound := sound c; sequence := sequence c; beat := beat c; duration := d;
     events := events c; interval := interval c |}.

Definition with_events (m : gmap nat Event) (c : t) : t :=
  {| sound := sound c; sequence := sequence c; beat := beat c; duration := duration c;
     events := m; interval := interval c |}.

Definition with_interval (i : option nat) (c : t) : t :=
  {| sound := sound c; sequence := sequence c; beat := beat c; duration := duration c;
     events := events c; interval := i |}.

(** [set bpm (bpm)]: the step duration, and the playback rate above 60. *)
Definition set_bpm (bpm : float) (c : t) : t :=
  let c1 := with_duration ((60 / bpm) * (1000 / 4))%float c in
  if (60 <? bpm)%float then with_sound (Sound.set_rate 2 (sound c1)) c1 else c1.

(** [new Array(16).fill(0)] *)
Definition empty_sequence : list Z := replicate 16 0%Z.

(** [constructor (sound, sequence = new Array(16).fill(0), bpm = 120)].
    [duration] has no value before the [bpm] setter runs; the setter
    assigns it whatever the record holds there. *)
Definition new (sound : Sound.t) (sequence : option (list Z)) (bpm : option float) : t :=
  set_bpm (default 120%float bpm)
    {| sound := sound; sequence := default empty_sequence sequence; beat := 0;
       duration := 0; events := ∅; interval := None |}.

(** [clear ()] *)
Definition clear (c : t) : t := with_sequence empty_sequence c.

(** Truthiness of [this.sequence[this.beat]]: a number is truthy unless it
    is 0; a read past the end of the array is [undefined], which is falsy. *)
Definition truthy (cell : option Z) : bool :=
  match cell with
  | Some z => negb (z =? 0)%Z
  | None => false
  end.

(** [`beat-${this.sound.name}-${this.beat}`] *)
Definition eventName (name : string) (beat : nat) : string :=
  "beat-" +:+ name +:+ "-" +:+ pretty beat.

(** [playBeat ()]: sound the step at the cursor (audibly, with a
    notification, when the cell is truthy; at volume 0 otherwise), then
    advance the cursor and loop back to 0 at the end of the sequence. *)
Definition playBeat (this : ref) (c : t) (env : Env) : t * Env :=
  let '(c2, env2) :=
    if truthy (sequence c !! beat c) then
      let eventName := eventName (Sound.name (sound c)) (beat c) in
      let ev := default {| type := eventName |} (events c !! beat c) in
      let c1 := with_events (<[beat c := ev]> (events c)) c in
      let env1 := dispatchEvent ev env in
      let '(s, env2) := Sound.play this (Some (duration c1)) None (sound c1) env1 in
      (with_sound s c1, env2)
    else
      let '(s, env1) := Sound.play this (Some (duration c)) (Some 0%float) (sound c) env in
      (with_sound s c, env1) in
  let c3 := with_beat (beat c2 + 1) c2 in
  let c4 := if bool_decide (length (sequence c3) ≤ beat c3) then with_beat 0 c3 else c3 in
  (c4, env2).

(** [loop ()] *)
Definition loop (this : ref) (c : t) (env : Env) : t * Env :=
  let '(id, env1) := setInterval (PlayBeat this) (duration c) env in
  (with_interval (Some id) c, env1).

(** [stop ()] *)
Definition stop (c : t) (env : Env) : t * Env :=
  let env1 := clearInterval (interval c) env in
  (with_beat 0 c, env1).

End Channel.

(** ** class Sequencer *)

Module Sequencer.

Record t := {
  channels : list Channel.t;
  __bpm : float
}.

(** [this.channels.forEach(c => ...)] for a callback that works on the
    channel and on the environment; [i] is the index of the head of [cs]. *)
Fixpoint forEach (f : ref → Channel.t → Env → Channel.t * Env)
    (i : ref) (cs : list Channel.t) (env : Env) : list Channel.t * Env :=
  match cs with
  | [] => ([], env)
  | c :: cs' =>
      let '(c', env1) := f i c env in
      let '(cs'', env2) := forEach f (S i) cs' env1 in
      (c' :: cs'', env2)
  end.

(** [play ()] *)
Definition play (s : t) (env : Env) : t * Env :=
  let '(cs, env1) := forEach Channel.loop 0 (channels s) env in
  ({| channels := cs; __bpm := __bpm s |}, env1).

(** [stop ()] *)
Definition stop (s : t) (env : Env) : t * Env :=
  let '(cs, env1) := forEach (λ _, Channel.stop) 0 (channels s) env in
  ({| channels := cs; __bpm := __bpm s |}, env1).

(** [get bpm ()] *)
Definition get_bpm (s : t) : float := __bpm s.

(** [set bpm (bpm)] *)
Definition set_bpm (bpm : float) (s : t) : t :=
  {| channels := Channel.set_bpm bpm <$> channels s; __bpm := bpm |}.

(** [constructor (channels, bpm = 120)].  [__bpm] has no value before the
    setter runs, which assigns it. *)
Definition new (channels : list Channel.t) (bpm : option float) : t :=
  set_bpm (default 120%float bpm) {| channels := channels; __bpm := 0 |}.

End Sequencer.

(** ** The sequencer instance at the end of [index.js] *)

Definition sound_names : list string :=
  ["hat"; "kick"; "snare"; "tom"; "hat-open"; "ride"; "sidestick"; "ride-bell"].

Definition sounds : list Sound.t :=
  (λ s, Sound.new ("sounds/" +:+ s +:+ ".wav") s None) <$> sound_names.

Definition channels : list Channel.t :=
  (λ s, Channel.new s None None) <$> sounds.

(** [sequencer.channels[i].sequence = l] *)
Definition set_sequence (i : nat) (l : list Z) (s : Sequencer.t) : Sequencer.t :=
  {| Sequencer.channels := alter (Channel.with_sequence l) i (Sequencer.channels s);
     Sequencer.__bpm := Sequencer.__bpm s |}.

(** [a[k] = v] on a JavaScript array.  Past the end the array grows up to
    index [k]; the cells skipped are holes, which read as [undefined] and
    are put down as 0 here: both are falsy, and the truthiness of a cell is
    all that [playBeat] reads of it. *)
Definition array_set (k : nat) (v : Z) (a : list Z) : list Z :=
  if bool_decide (k < length a) then <[k := v]> a
  else a ++ replicate (k - length a) 0%Z ++ [v].

(** [sequencer.channels[i].sequence[k] = v], the click on a beat of the grid *)
Definition set_cell (i k : nat) (v : Z) (s : Sequencer.t) : Sequencer.t :=
  {| Sequencer.channels :=
       alter (λ c, Channel.with_sequence (array_set k v (Channel.sequence c)) c) i
             (Sequencer.channels s);
     Sequencer.__bpm := Sequencer.__bpm s |}.

Definition afrika_hat : list Z := [1; 0; 1; 1; 1; 0; 1; 1; 1; 0; 1; 1; 1; 1; 1; 1]%Z.

Definition sequencer : Sequencer.t :=
  set_sequence 7 [1; 0; 1; 0; 1; 0; 1; 1; 0; 1; 0; 1; 1; 0; 1; 0]%Z
    (set_sequence 2 [0; 0; 0; 0; 1; 0; 0; 0; 0; 0; 0; 0; 1; 0; 0; 0]%Z
       (set_sequence 1 [1; 0; 0; 0; 0; 0; 1; 0; 0; 0; 0; 0; 0; 0; 0; 0]%Z
          (set_sequence 0 afrika_hat (Sequencer.new channels None)))).

(** ** The running program

    The state of the page is the sequencer together with the environment.
    It changes when one of the sequencer's methods is called or a pattern
    is written from outside (the play/stop and clear buttons, the beats of
    the grid, the console) and when the browser runs a pending timer. *)

Record State := {
  sequencer_of : Sequencer.t;
  env_of : Env
}.

Inductive action :=
| Play                              (* sequencer.play() *)
| Stop                              (* sequencer.stop() *)
| SetTempo (bpm : float)            (* sequencer.bpm = bpm *)
| Clear (i : ref)                   (* sequencer.channels[i].clear() *)
| SetSequence (i : ref) (l : list Z) (* sequencer.channels[i].sequence = l *)
| SetCell (i : ref) (k : nat) (v : Z) (* sequencer.channels[i].sequence[k] = v *)
| Fire (id : nat).                  (* the browser runs the pending timer id *)

(** Run a method of the channel at index [i]; nothing happens when there is
    no such channel. *)
Definition on_channel (i : ref) (f : Channel.t → Env → Channel.t * Env) (st : State) : State :=
  match Sequencer.channels (sequencer_of st) !! i with
  | Some c =>
      let '(c', env') := f c (env_of st) in
      {| sequencer_of := {| Sequencer.channels := <[i := c']> (Sequencer.channels (sequencer_of st));
                            Sequencer.__bpm := Sequencer.__bpm (sequencer_of st) |};
         env_of := env' |}
  | None => st
  end.

Definition run_callback (f : callback) (st : State) : State :=
  match f with
  | StopSound i =>
      on_channel i (λ c env, (Channel.with_sound (Sound.stop (Channel.sound c)) c, env)) st
  | PlayBeat i => on_channel i (Channel.playBeat i) st
  end.

(** A [setTimeout] timer leaves the table when it runs; a [setInterval] timer
    stays until it is cleared. *)
Definition fire (id : nat) (st : State) : State :=
  match timers (env_of st) !! id with
  | Some tm =>
      let st1 :=
        if repeating tm then st
        else {| sequencer_of := sequencer_of st;
                env_of := {| timers := delete id (timers (env_of st));
                             next_id := next_id (env_of st);
                             trace := trace (env_of st) |} |} in
      run_callback (handler tm) st1
  | None => st
  end.

Definition step (a : action) (st : State) : State :=
  match a with
  | Play =>
      let '(s, env) := Sequencer.play (sequencer_of st) (env_of st) in
      {| sequencer_of := s; env_of := env |}
  | Stop =>
      let '(s, env) := Sequencer.stop (sequencer_of st) (env_of st) in
      {| sequencer_of := s; env_of := env |}
  | SetTempo bpm =>
      {| sequencer_of := Sequencer.set_bpm bpm (sequencer_of st); env_of := env_of st |}
  | Clear i => on_channel i (λ c env, (Channel.clear c, env)) st
  | SetSequence i l =>
      {| sequencer_of := set_sequence i l (sequencer_of st); env_of := env_of st |}
  | SetCell i k v =>
      {| sequencer_of := set_cell i k v (sequencer_of st); env_of := env_of st |}
  | Fire id => fire id st
  end.

Definition run (l : list action) (st : State) : State := foldl (λ st a, step a st) st l.

Definition initial_state : State := {| sequencer_of := sequencer; env_of := initial_env |}.

(** N ticks of one channel: [playBeat] called N times in a row. *)
Fixpoint ticks (n : nat) (this : ref) (c : Channel.t) (env : Env) : Channel.t * Env :=
  match n with
  | 0 => (c, env)
  | S n' => let '(c1, env1) := Channel.playBeat this c env in ticks n' this c1 env1
  end.

(** ** The page's controls

    The "Sequencer UI" section of [index.js] draws the grid and the buttons
    and hooks listeners on them.  What the listeners do to the sequencer is
    embedded here; what they write back into the page is kept as the strings
    they write (the class of a beat, the label of the play button).  The
    drawing itself is work on the DOM and has no counterpart here. *)

Module BeatElement.

Record t := {
  beat : Z;            (* this.beat: the element's own copy of the cell *)
  index : nat;         (* this.index *)
  channel : ref;       (* this.channel, as the index of that Channel *)
  className : string   (* the class of the span [render] made *)
}.

(** [`beat ${this.index} ${(this.beat) ? 'on' : 'off'}`] *)
Definition class_of (index : nat) (beat : Z) : string :=
  "beat " +:+ pretty index +:+ " "
  +:+ (if Channel.truthy (Some beat) then "on" else "off").

(** [constructor (beat, index, channel, container)], and the class that
    [render ()] gives the span. *)
Definition render (beat : Z) (index : nat) (channel : ref) : t :=
  {| beat := beat; index := index; channel := channel;
     className := class_of index beat |}.

(** [Number(!beat)] *)
Definition toggled (beat : Z) : Z := if Channel.truthy (Some beat) then 0%Z else 1%Z.

(** The click listener of [render ()]:
      this.beat = Number(!this.beat)
      this.channel.sequence[this.index] = this.beat
      event.target.className = `beat ${this.index} ${(this.beat) ? 'on' : 'off'}` *)
Definition click (b : t) (s : Sequencer.t) : t * Sequencer.t :=
  let beat1 := toggled (beat b) in
  let s1 := set_cell (channel b) (index b) beat1 s in
  ({| beat := beat1; index := index b; channel := channel b;
      className := class_of (index b) beat1 |}, s1).

End BeatElement.

Module SequencerElement.

Record t := {
  playing : bool;        (* this.playing *)
  playButton : string    (* innerHTML of the play button *)
}.

(** [constructor (sequencer, container)] followed by [render ()] *)
Definition new : t := {| playing := false; playButton := "play" |}.

(** The click listener of the play button. *)
Definition play_click (ui : t) (st : State) : t * State :=
  if playing ui
  then ({| playing := false; playButton := "play" |}, step Stop st)
  else ({| playing := true; playButton := "stop" |}, step Play st).

(** The click listener of the clear button:
    [this.sequencer.channels.forEach(c => c.clear())]; the grid is then
    drawn again. *)
Definition clear_click (ui : t) (st : State) : t * State :=
  (ui,
   {| sequencer_of :=
        {| Sequencer.channels := Channel.clear <$> Sequencer.channels (sequencer_of st);
           Sequencer.__bpm := Sequencer.__bpm (sequencer_of st) |};
      env_of := env_of st |}).

End SequencerElement.

(** ** Vocabulary of the properties *)

(** The event object [playBeat] creates for step [i] of a sound called [name]. *)
Definition beat_event (name : string) (i : nat) : Event :=
  {| type := Channel.eventName name i |}.

(** [this.events] only caches what [playBeat] put there: the event cached at
    index [i] is the event of step [i]. *)
Definition events_ok (c : Channel.t) : Prop :=
  ∀ i e, Channel.events c !! i = Some e →
         e = beat_event (Sound.name (Channel.sound c)) i.

(** The playback-trigger notifications of a trace, and the levels at which
    the voices were fired, both in the order in which they happened. *)
Definition notifications (tr : list effect) : list Event :=
  omap (λ x, match x with DispatchEvent e => Some e | AudioPlay _ _ => None end) tr.

Definition levels (tr : list effect) : list float :=
  omap (λ x, match x with AudioPlay _ v => Some v | DispatchEvent _ => None end) tr.

(** The positions of a list of levels that hold a silent (zero) level. *)
Fixpoint silent_from (k : nat) (ls : list float) : list nat :=
  match ls with
  | [] => []
  | v :: ls' => if (v =? 0)%float then k :: silent_from (S k) ls' else silent_from (S k) ls'
  end.

Definition silent_steps (ls : list float) : list nat := silent_from 0 ls.

(** The cursor after the step at cursor [b] of a pattern of length [len]. *)
Definition next_beat (len b : nat) : nat :=
  if bool_decide (len ≤ b + 1) then 0 else b + 1.

(** What one tick at cursor [b] adds to the trace, and what [n] ticks add. *)
Definition tick_effects (this : ref) (name : string) (pattern : list Z) (b : nat)
  : list effect :=
  if Channel.truthy (pattern !! b)
  then [DispatchEvent (beat_event name b); AudioPlay this 1]
  else [AudioPlay this 0].

Fixpoint ticks_effects (n : nat) (this : ref) (name : string) (pattern : list Z) (b : nat)
  : list effect :=
  match n with
  | 0 => []
  | S n' => tick_effects this name pattern b
            ++ ticks_effects n' this name pattern (next_beat (length pattern) b)
  end.

(** A voice that has been forced silent and rewound. *)
Definition silenced (s : Sound.t) : Prop :=
  Sound.volume (Sound.audio s) = 0%float
  ∧ Sound.paused (Sound.audio s) = true
  ∧ Sound.currentTime (Sound.audio s) = 0%float.

Definition rate_of (c : Channel.t) : float :=
  Sound.playbackRate (Sound.audio (Channel.sound c)).

(** Every channel's step duration is the one derived from the sequencer's tempo. *)
Definition consistent (s : Sequencer.t) : Prop :=
  Forall (λ c, Channel.duration c = (60 / Sequencer.get_bpm s * (1000 / 4))%float)
         (Sequencer.channels s).

(** Timer ids are handed out in increasing order: no pending timer has an id
    that is still to be handed out. *)
Definition env_ok (env : Env) : Prop :=
  ∀ id, is_Some (timers env !! id) → id < next_id env.

(** A Channel's [interval] handle, when it has one, is an id that has been
    handed out, and a timer pending under it is a repeating one. *)
Definition handle_ok (env : Env) (c : Channel.t) : Prop :=
  ∀ j, Channel.interval c = Some j →
       j < next_id env ∧ ∀ t, timers env !! j = Some t → repeating t = true.

(** From [env] to [env'] ids were only handed out, and the timers under the
    ids handed out before were left alone or removed. *)
Definition env_grows (env env' : Env) : Prop :=
  next_id env ≤ next_id env'
  ∧ ∀ j t, j < next_id env → timers env' !! j = Some t → timers env !! j = Some t.

(** The arguments of one [new Channel(sound, sequence, bpm)], and the call. *)
Definition channel_args : Type := Sound.t * option (list Z) * option float.

Definition construct (a : channel_args) : Channel.t := Channel.new a.1.1 a.1.2 a.2.

(** The states the page can be in: channels are constructed, a sequencer is
    constructed over them in a page without timers, then actions happen. *)
Inductive reachable : State → Prop :=
| reachable_new (args : list channel_args) (bpm : option float) :
    reachable {| sequencer_of := Sequencer.new (construct <$> args) bpm;
                 env_of := initial_env |}
| reachable_step (a : action) (st : State) :
    reachable st → reachable (step a st).

(** The channel at index [i] in a state. *)
Definition channel_at (i : ref) (st : State) : option Channel.t :=
  Sequencer.channels (sequencer_of st) !! i.

(** The hat channel of the instance, before and after its pattern is loaded. *)
Definition hat_sound : Sound.t := Sound.new "sounds/hat.wav" "hat" None.
Definition hat_channel : Channel.t :=
  Channel.with_sequence afrika_hat (Channel.new hat_sound None None).

(** The [interval] handles of the channels, in the order of the channels. *)
Definition handles (s : Sequencer.t) : list (option nat) :=
  Channel.interval <$> Sequencer.channels s.

(** The repeating timer that [loop] starts for the channel [i]. *)
Definition ticker (i : ref) (period : float) : Timer :=
  {| handler := PlayBeat i; delay := period; repeating := true |}.

(** The deferred stop that a firing of the voice of channel [i] leaves. *)
Definition stopper (i : ref) (duration : float) : Timer :=
  {| handler := StopSound i; delay := (duration - 10)%float; repeating := false |}.

(** A pattern without an audible step. *)
Definition all_silent (pattern : list Z) : Prop :=
  ∀ k, Channel.truthy (pattern !! k) = false.

(** The steps of a pattern that are audible, in increasing order. *)
Definition audible_steps (pattern : list Z) : list nat :=
  filter (λ k, Channel.truthy (pattern !! k) = true) (seq 0 (length pattern)).

(** The level at which the step [k] of a pattern fires the voice. *)
Definition level_of (pattern : list Z) (k : nat) : float :=
  if Channel.truthy (pattern !! k) then 1%float else 0%float.

(** The page with its controls.  Besides the two buttons, anything may happen
    to it that is not a call of [play] or [stop]: a beat of the grid is
    clicked, a pattern or the tempo is set from the console, a timer runs. *)
Record Page := {
  ui_of : SequencerElement.t;
  state_of : State
}.

Inductive page_reachable : Page → Prop :=
| page_new (args : list channel_args) (bpm : option float) :
    page_reachable
      {| ui_of := SequencerElement.new;
         state_of := {| sequencer_of := Sequencer.new (construct <$> args) bpm;
                        env_of := initial_env |} |}
| page_play_click (p : Page) :
    page_reachable p →
    page_reachable
      {| ui_of := (SequencerElement.play_click (ui_of p) (state_of p)).1;
         state_of := (SequencerElement.play_click (ui_of p) (state_of p)).2 |}
| page_clear_click (p : Page) :
    page_reachable p →
    page_reachable
      {| ui_of := (SequencerElement.clear_click (ui_of p) (state_of p)).1;
         state_of := (SequencerElement.clear_click (ui_of p) (state_of p)).2 |}
| page_other (a : action) (p : Page) :
    page_reachable p → a ≠ Play → a ≠ Stop →
    page_reachable {| ui_of := ui_of p; state_of := step a (state_of p) |}.

(** A string without a hyphen. *)
Fixpoint dashless (s : string) : Prop :=
  match s with
  | EmptyString => True
  | String a s' => a ≠ "-"%char ∧ dashless s'
  end.

(** What the play button keeps true of the page: timer ids are fresh; while
    the button says "play" no repeating timer is pending; while it says
    "stop" the pending repeating timers are the ones the Channels' handles
    name, one for each Channel, each running that Channel's [playBeat]. *)
Definition page_ok (p : Page) : Prop :=
  let st := state_of p in
  env_ok (env_of st)
  ∧ (SequencerElement.playing (ui_of p) = false →
     ∀ id t, timers (env_of st) !! id = Some t → repeating t = false)
  ∧ (SequencerElement.playing (ui_of p) = true →
     (∀ id t, timers (env_of st) !! id = Some t → repeating t = true →
        ∃ i, handles (sequencer_of st) !! i = Some (Some id) ∧ handler t = PlayBeat i)
     ∧ (∀ i h, handles (sequencer_of st) !! i = Some h →
        ∃ id d, h = Some id ∧ timers (env_of st) !! id = Some (ticker i d)))
  ∧ SequencerElement.playButton (ui_of p)
    = (if SequencerElement.playing (ui_of p) then "stop" else "play").

(** ** The clock

    The table of timers says what is pending; when a pending timer runs is
    the host's business.  Here the host keeps a clock, in milliseconds, and
    for each pending timer the time it is due: the time at which it was set
    (for a repeating timer: last run) plus the time the host waits for the
    delay the timer was given.  A timer runs when it is due, not before, and
    the clock does not pass a timer that is due: that timer runs first.  How
    long a host waits for a given delay is not in [index.js]; it is the
    parameter [host] of what follows. *)

(** What the timer initialisation steps of HTML make of a delay: the
    conversion of the number to a [long] (truncated, modulo 2^32; 0 for NaN
    and the infinities), and 0 for a negative one. *)
Definition timeout_ms (x : float) : Z :=
  match Prim2SF x with
  | S754_finite false m e =>
      let n := if (0 <=? e)%Z then (Z.pos m * 2 ^ e)%Z else (Z.pos m / 2 ^ (- e))%Z in
      let w := (n mod 2 ^ 32)%Z in
      if (w <? 2 ^ 31)%Z then w else 0%Z
  | _ => 0%Z
  end.

(** [n] ms are no more than [x] ms, exactly: the double [x] is read as the
    number it stands for. *)
Definition ms_le (n : Z) (x : float) : Prop :=
  match Prim2SF x with
  | S754_zero _ => (n ≤ 0)%Z
  | S754_infinity s => s = false
  | S754_nan => False
  | S754_finite false m e =>
      if (0 <=? e)%Z then (n ≤ Z.pos m * 2 ^ e)%Z else (n * 2 ^ (- e) ≤ Z.pos m)%Z
  | S754_finite true m e =>
      if (0 <=? e)%Z then (n ≤ - (Z.pos m * 2 ^ e))%Z else (n * 2 ^ (- e) ≤ - Z.pos m)%Z
  end.

Record Clocked := {
  running : State;
  now : Z;               (* the host's clock, in ms *)
  due : gmap nat Z       (* when each pending timer is due *)
}.

Inductive clocked_event :=
| Act (a : action)       (* an action, other than the run of a timer, happens *)
| Call (i : ref) (duration volume : option float)
                         (* sequencer.channels[i].sound.play(duration, volume) *)
| Wait (dt : Z)          (* dt ms pass *)
| Run (id : nat).        (* the host runs the timer id, which is due *)

(** The levels an [Audio] element takes: the setter of [audio.volume] throws
    on a number outside [0, 1] (and on NaN). *)
Definition valid_volume (v : float) : bool := (0 <=? v)%float && (v <=? 1)%float.

(** [c.sound.play(duration, volume)] on the Channel [c] at index [i]. *)
Definition fire_voice (i : ref) (duration volume : option float)
    (c : Channel.t) (env : Env) : Channel.t * Env :=
  let '(s, env') := Sound.play i duration volume (Channel.sound c) env in
  (Channel.with_sound s c, env').

(** The due times after something happened at time [now]: a timer that was
    pending keeps its due time, a timer that was set is due when the host
    has waited for its delay, a timer that is gone has no due time. *)
Definition arm (host : float → Z) (now : Z) (due : gmap nat Z) (env : Env) : gmap nat Z :=
  map_imap (λ id t, Some (default (now + host (delay t))%Z (due !! id))) (timers env).

Definition clocked_step (host : float → Z) (e : clocked_event) (k : Clocked)
  : option Clocked :=
  match e with
  | Act (Fire _) => None
  | Act a =>
      let st := step a (running k) in
      Some {| running := st; now := now k; due := arm host (now k) (due k) (env_of st) |}
  | Call i duration volume =>
      (* [this.volume = volume] is the first statement of [play]: at a level
         the element refuses it throws, and [play] has done nothing *)
      if valid_volume (default 1%float volume) then
        let st := on_channel i (fire_voice i duration volume) (running k) in
        Some {| running := st; now := now k; due := arm host (now k) (due k) (env_of st) |}
      else Some k
  | Wait dt =>
      if bool_decide (0 ≤ dt)%Z
         && bool_decide (map_Forall (λ _ t, (now k + dt ≤ t)%Z) (due k))
      then Some {| running := running k; now := (now k + dt)%Z; due := due k |}
      else None
  | Run id =>
      match due k !! id with
      | Some t =>
          if bool_decide (t ≤ now k)%Z then
            let st := step (Fire id) (running k) in
            Some {| running := st; now := now k;
                    due := arm host (now k) (delete id (due k)) (env_of st) |}
          else None
      | None => None
      end
  end.

Fixpoint clocked_run (host : float → Z) (evs : list clocked_event) (k : Clocked)
  : option Clocked :=
  match evs with
  | [] => Some k
  | e :: evs' =>
      match clocked_step host e k with
      | Some k' => clocked_run host evs' k'
      | None => None
      end
  end.

(** The page as it starts: the clock at 0, nothing pending. *)
Definition clocked_start (st : State) : Clocked :=
  {| running := st; now := 0; due := ∅ |}.

Inductive clocked_reachable (host : float → Z) : Clocked → Prop :=
| clocked_new (args : list channel_args) (bpm : option float) :
    clocked_reachable host
      (clocked_start {| sequencer_of := Sequencer.new (construct <$> args) bpm;
                        env_of := initial_env |})
| clocked_next (e : clocked_event) (k k' : Clocked) :
    clocked_reachable host k → clocked_step host e k = Some k' →
    clocked_reachable host k'.

(** What every state of the clocked page keeps: timer ids are fresh and
    interval handles name repeating timers; no pending timer is overdue;
    only pending timers have a due time. *)
Definition state_ok (st : State) : Prop :=
  env_ok (env_of st)
  ∧ Forall (handle_ok (env_of st)) (Sequencer.channels (sequencer_of st)).

Definition clocked_ok (k : Clocked) : Prop :=
  state_ok (running k)
  ∧ (∀ id t, due k !! id = Some t → (now k ≤ t)%Z)
  ∧ (∀ id, is_Some (due k !! id) → is_Some (timers (env_of (running k)) !! id)).

(** ** Basic facts about the methods *)

Section PlayBeat.
Variables (this : ref) (c : Channel.t) (env : Env).

Lemma playBeat_sequence :
  Channel.sequence (Channel.playBeat this c env).1 = Channel.sequence c.
Proof.
  unfold Channel.playBeat, Sound.play.
  destruct (Channel.truthy _); simpl; case_bool_decide; reflexivity.
Qed.

Lemma playBeat_beat :
  Channel.beat (Channel.playBeat this c env).1
  = next_beat (length (Channel.sequence c)) (Channel.beat c).
Proof.
  unfold Channel.playBeat, Sound.play, next_beat.
  destruct (Channel.truthy _); simpl; case_bool_decide; reflexivity.
Qed.

Lemma playBeat_duration :
  Channel.duration (Channel.playBeat this c env).1 = Channel.duration c.
Proof.
  unfold Channel.playBeat, Sound.play.
  destruct (Channel.truthy _); simpl; case_bool_decide; reflexivity.
Qed.

Lemma playBeat_interval :
  Channel.interval (Channel.playBeat this c env).1 = Channel.interval c.
Proof.
  unfold Channel.playBeat, Sound.play.
  destruct (Channel.truthy _); simpl; case_bool_decide; reflexivity.
Qed.

Lemma playBeat_name :
  Sound.name (Channel.sound (Channel.playBeat this c env).1)
  = Sound.name (Channel.sound c).
Proof.
  unfold Channel.playBeat, Sound.play.
  destruct (Channel.truthy _); simpl; case_bool_decide; reflexivity.
Qed.

Lemma playBeat_rate : rate_of (Channel.playBeat this c env).1 = rate_of c.
Proof.
  unfold rate_of, Channel.playBeat, Sound.play.
  destruct (Channel.truthy _); simpl; case_bool_decide; reflexivity.
Qed.

(** Each tick leaves exactly one new timer behind: the deferred stop of the
    voice, 10 ms short of the step duration. *)
Lemma playBeat_timers :
  timers (Channel.playBeat this c env).2
  = <[next_id env := {| handler := StopSound this;
                        delay := (Channel.duration c - 10)%float;
                        repeating := false |}]> (timers env).
Proof.
  unfold Channel.playBeat, Sound.play.
  destruct (Channel.truthy _); simpl; reflexivity.
Qed.

Lemma playBeat_next_id :
  next_id (Channel.playBeat this c env).2 = S (next_id env).
Proof.
  unfold Channel.playBeat, Sound.play.
  destruct (Channel.truthy _); simpl; reflexivity.
Qed.

Lemma playBeat_silent :
  Channel.truthy (Channel.sequence c !! Channel.beat c) = false →
  trace (Channel.playBeat this c env).2 = trace env ++ [AudioPlay this 0].
Proof.
  intros Hcell. unfold Channel.playBeat, Sound.play. rewrite Hcell. reflexivity.
Qed.

Lemma playBeat_audible :
  events_ok c →
  Channel.truthy (Channel.sequence c !! Channel.beat c) = true →
  trace (Channel.playBeat this c env).2
  = trace env ++ [DispatchEvent (beat_event (Sound.name (Channel.sound c)) (Channel.beat c));
                  AudioPlay this 1].
Proof.
  intros Hok Hcell. unfold Channel.playBeat, Sound.play. rewrite Hcell. simpl.
  rewrite <- app_assoc. simpl. do 3 f_equal.
  destruct (Channel.events c !! Channel.beat c) as [e|] eqn:He; simpl.
  - apply (Hok _ _ He).
  - reflexivity.
Qed.

Lemma playBeat_trace :
  events_ok c →
  trace (Channel.playBeat this c env).2
  = trace env ++ tick_effects this (Sound.name (Channel.sound c))
                              (Channel.sequence c) (Channel.beat c).
Proof.
  intros Hok. unfold tick_effects.
  destruct (Channel.truthy _) eqn:Hcell.
  - by apply playBeat_audible.
  - by apply playBeat_silent.
Qed.

Lemma playBeat_events :
  Channel.events (Channel.playBeat this c env).1
  = if Channel.truthy (Channel.sequence c !! Channel.beat c)
    then <[Channel.beat c :=
             default (beat_event (Sound.name (Channel.sound c)) (Channel.beat c))
                     (Channel.events c !! Channel.beat c)]> (Channel.events c)
    else Channel.events c.
Proof.
  unfold Channel.playBeat, Sound.play.
  destruct (Channel.truthy _); simpl; case_bool_decide; reflexivity.
Qed.

Lemma playBeat_events_ok : events_ok c → events_ok (Channel.playBeat this c env).1.
Proof.
  intros Hok i e. rewrite playBeat_name, playBeat_events.
  destruct (Channel.truthy _); [|by apply Hok].
  destruct (decide (Channel.beat c = i)) as [<-|Hne].
  - rewrite lookup_insert_eq. intros [= <-].
    destruct (Channel.events c !! Channel.beat c) as [e'|] eqn:He'; simpl;
      [by apply Hok | reflexivity].
  - rewrite lookup_insert_ne by done. by apply Hok.
Qed.

End PlayBeat.

Section SetBpm.
Variables (bpm : float) (c : Channel.t).

Lemma set_bpm_duration :
  Channel.duration (Channel.set_bpm bpm c) = (60 / bpm * (1000 / 4))%float.
Proof. unfold Channel.set_bpm. by destruct (60 <? bpm)%float. Qed.

Lemma set_bpm_sequence : Channel.sequence (Channel.set_bpm bpm c) = Channel.sequence c.
Proof. unfold Channel.set_bpm. by destruct (60 <? bpm)%float. Qed.

Lemma set_bpm_beat : Channel.beat (Channel.set_bpm bpm c) = Channel.beat c.
Proof. unfold Channel.set_bpm. by destruct (60 <? bpm)%float. Qed.

Lemma set_bpm_events : Channel.events (Channel.set_bpm bpm c) = Channel.events c.
Proof. unfold Channel.set_bpm. by destruct (60 <? bpm)%float. Qed.

Lemma set_bpm_interval : Channel.interval (Channel.set_bpm bpm c) = Channel.interval c.
Proof. unfold Channel.set_bpm. by destruct (60 <? bpm)%float. Qed.

Lemma set_bpm_name :
  Sound.name (Channel.sound (Channel.set_bpm bpm c)) = Sound.name (Channel.sound c).
Proof. unfold Channel.set_bpm. by destruct (60 <? bpm)%float. Qed.

Lemma set_bpm_events_ok : events_ok c → events_ok (Channel.set_bpm bpm c).
Proof. intros Hok i e. rewrite set_bpm_events, set_bpm_name. apply Hok. Qed.

Lemma set_bpm_rate_fast : (60 <? bpm)%float = true → rate_of (Channel.set_bpm bpm c) = 2%float.
Proof. intros H. unfold rate_of, Channel.set_bpm. by rewrite H. Qed.

Lemma set_bpm_rate_slow : (60 <? bpm)%float = false → rate_of (Channel.set_bpm bpm c) = rate_of c.
Proof. intros H. unfold rate_of, Channel.set_bpm. by rewrite H. Qed.

End SetBpm.

Lemma new_events_ok sound pattern bpm : events_ok (Channel.new sound pattern bpm).
Proof.
  unfold Channel.new. apply set_bpm_events_ok. intros i e. simpl.
  by rewrite lookup_empty.
Qed.

Lemma clear_events_ok c : events_ok c → events_ok (Channel.clear c).
Proof. intros Hok. exact Hok. Qed.

Lemma with_sequence_events_ok l c : events_ok c → events_ok (Channel.with_sequence l c).
Proof. intros Hok. exact Hok. Qed.

Lemma loop_events_ok this c env : events_ok c → events_ok (Channel.loop this c env).1.
Proof. intros Hok. exact Hok. Qed.

Lemma stop_events_ok c env : events_ok c → events_ok (Channel.stop c env).1.
Proof. intros Hok. exact Hok. Qed.

(** *** Iterated ticks *)

Lemma ticks_S n this c env :
  ticks (S n) this c env
  = ticks n this (Channel.playBeat this c env).1 (Channel.playBeat this c env).2.
Proof. simpl. by destruct (Channel.playBeat this c env). Qed.

Lemma ticks_last n this c env :
  ticks (S n) this c env
  = Channel.playBeat this (ticks n this c env).1 (ticks n this c env).2.
Proof.
  revert c env. induction n as [|n IH]; intros c env.
  - simpl. by destruct (Channel.playBeat this c env).
  - rewrite ticks_S, IH. by rewrite <- ticks_S.
Qed.

Lemma ticks_sequence n this c env :
  Channel.sequence (ticks n this c env).1 = Channel.sequence c.
Proof.
  revert c env. induction n as [|n IH]; intros c env; [done|].
  by rewrite ticks_S, IH, playBeat_sequence.
Qed.

Lemma ticks_name n this c env :
  Sound.name (Channel.sound (ticks n this c env).1) = Sound.name (Channel.sound c).
Proof.
  revert c env. induction n as [|n IH]; intros c env; [done|].
  by rewrite ticks_S, IH, playBeat_name.
Qed.

Lemma ticks_events_ok n this c env : events_ok c → events_ok (ticks n this c env).1.
Proof.
  revert c env. induction n as [|n IH]; intros c env Hok; [done|].
  rewrite ticks_S. by apply IH, playBeat_events_ok.
Qed.

Lemma next_beat_lt len b : 0 < len → next_beat len b < len.
Proof. intros Hlen. unfold next_beat. case_bool_decide; lia. Qed.

Lemma next_beat_mod len b : b < len → next_beat len b = (b + 1) mod len.
Proof.
  intros Hb. unfold next_beat. case_bool_decide.
  - assert (b + 1 = len) as -> by lia. by rewrite Nat.Div0.mod_same.
  - by rewrite Nat.mod_small by lia.
Qed.

Lemma ticks_beat_mod n this c env :
  Channel.beat c < length (Channel.sequence c) →
  Channel.beat (ticks n this c env).1 = (Channel.beat c + n) mod length (Channel.sequence c).
Proof.
  revert c env. induction n as [|n IH]; intros c env Hb.
  - simpl. rewrite Nat.add_0_r. by rewrite Nat.mod_small.
  - rewrite ticks_S, IH; rewrite playBeat_sequence, playBeat_beat.
    + rewrite next_beat_mod by done.
      rewrite Nat.Div0.add_mod_idemp_l. f_equal. lia.
    + apply next_beat_lt. lia.
Qed.

Lemma ticks_trace n this c env :
  events_ok c →
  trace (ticks n this c env).2
  = trace env ++ ticks_effects n this (Sound.name (Channel.sound c))
                               (Channel.sequence c) (Channel.beat c).
Proof.
  revert c env. induction n as [|n IH]; intros c env Hok.
  - simpl. by rewrite app_nil_r.
  - rewrite ticks_S, IH by (by apply playBeat_events_ok).
    rewrite playBeat_trace, playBeat_name, playBeat_sequence, playBeat_beat by done.
    simpl. by rewrite app_assoc.
Qed.
(** *** Ticks of a cleared channel *)

Lemma empty_sequence_falsy k : Channel.truthy (Channel.empty_sequence !! k) = false.
Proof.
  destruct (Channel.empty_sequence !! k) as [z|] eqn:Hk; [|done].
  apply lookup_replicate in Hk as [-> _]. reflexivity.
Qed.

Lemma ticks_all_silent n this c env :
  (∀ k, Channel.truthy (Channel.sequence c !! k) = false) →
  trace (ticks n this c env).2 = trace env ++ replicate n (AudioPlay this 0).
Proof.
  revert c env. induction n as [|n IH]; intros c env Hoff.
  - simpl. by rewrite app_nil_r.
  - rewrite ticks_S, IH by (intros k; by rewrite playBeat_sequence).
    rewrite playBeat_silent by done. by rewrite <- app_assoc.
Qed.

Lemma notifications_silent tr n this :
  notifications (tr ++ replicate n (AudioPlay this 0)) = notifications tr.
Proof.
  unfold notifications. rewrite omap_app.
  assert (omap (λ x, match x with DispatchEvent e => Some e | AudioPlay _ _ => None end)
               (replicate n (AudioPlay this 0)) = []) as ->
    by (induction n; [done | simpl; done]).
  by rewrite app_nil_r.
Qed.

(** *** [forEach] over the channels *)

Lemma forEach_length f i cs env :
  length (Sequencer.forEach f i cs env).1 = length cs.
Proof.
  revert i env. induction cs as [|c cs IH]; intros i env; [done|].
  simpl. destruct (f i c env) as [c' env1] eqn:Hf.
  specialize (IH (S i) env1). destruct (Sequencer.forEach f (S i) cs env1). simpl in *. lia.
Qed.

(** A field that the callback leaves alone is left alone in the whole list. *)
Lemma forEach_keeps {A} (p : Channel.t → A) f i cs env :
  (∀ j c e, p (f j c e).1 = p c) →
  p <$> (Sequencer.forEach f i cs env).1 = p <$> cs.
Proof.
  intros Hf. revert i env. induction cs as [|c cs IH]; intros i env; [done|].
  cbn [Sequencer.forEach]. pose proof (Hf i c env) as Hc. destruct (f i c env) as [c' env1].
  specialize (IH (S i) env1). destruct (Sequencer.forEach f (S i) cs env1) as [cs' env2].
  cbn [fst] in *. rewrite !fmap_cons. by rewrite Hc, IH.
Qed.

(** A property of the environment that the callback keeps is kept. *)
Lemma forEach_env_invariant (P : Env → Prop) f i cs env :
  (∀ j c e, P e → P (f j c e).2) →
  P env → P (Sequencer.forEach f i cs env).2.
Proof.
  intros Hf. revert i env. induction cs as [|c cs IH]; intros i env HP; [done|].
  simpl. pose proof (Hf i c env HP) as Hc. destruct (f i c env) as [c' env1].
  specialize (IH (S i) env1 Hc). by destruct (Sequencer.forEach f (S i) cs env1).
Qed.

Lemma forEach_stop_channels i cs env :
  (Sequencer.forEach (λ _, Channel.stop) i cs env).1 = Channel.with_beat 0 <$> cs.
Proof.
  revert i env. induction cs as [|c cs IH]; intros i env; [done|].
  simpl. specialize (IH (S i) (clearInterval (Channel.interval c) env)).
  destruct (Sequencer.forEach _ (S i) cs _). simpl in *. by rewrite IH.
Qed.

Lemma clearInterval_gone id env : timers (clearInterval (Some id) env) !! id = None.
Proof. simpl. apply lookup_delete_eq. Qed.

Lemma clearInterval_stays_gone h id env :
  timers env !! id = None → timers (clearInterval h env) !! id = None.
Proof.
  intros Hid. destruct h as [j|]; [|done]. simpl.
  rewrite lookup_delete. by case_decide.
Qed.

Lemma forEach_stop_stays_gone id i cs env :
  timers env !! id = None →
  timers (Sequencer.forEach (λ _, Channel.stop) i cs env).2 !! id = None.
Proof.
  apply (forEach_env_invariant (λ e, timers e !! id = None)).
  intros _ c e He. by apply clearInterval_stays_gone.
Qed.

Lemma forEach_stop_cancels i cs env c id :
  c ∈ cs → Channel.interval c = Some id →
  timers (Sequencer.forEach (λ _, Channel.stop) i cs env).2 !! id = None.
Proof.
  intros Hin Hid. revert i env.
  induction cs as [|c0 cs IH]; intros i env; [by apply elem_of_nil in Hin|].
  simpl.
  pose proof (forEach_stop_stays_gone id (S i) cs (clearInterval (Channel.interval c0) env))
    as Hrest.
  assert (IH' : c ∈ cs →
                timers (Sequencer.forEach (λ _, Channel.stop) (S i) cs
                          (clearInterval (Channel.interval c0) env)).2 !! id = None)
    by (intros H; by apply IH).
  destruct (Sequencer.forEach _ (S i) cs _) as [cs' env']. simpl in *.
  apply elem_of_cons in Hin as [<-|Hin].
  - apply Hrest. rewrite Hid. apply clearInterval_gone.
  - by apply IH'.
Qed.

(** *** Tempo and step duration *)

Lemma consistent_transfer s s' :
  Sequencer.get_bpm s' = Sequencer.get_bpm s →
  Channel.duration <$> Sequencer.channels s' = Channel.duration <$> Sequencer.channels s →
  consistent s → consistent s'.
Proof.
  unfold consistent. intros -> Hd Hs.
  apply (Forall_fmap Channel.duration
           (λ d, d = (60 / Sequencer.get_bpm s * (1000 / 4))%float)).
  rewrite Hd. by apply Forall_fmap.
Qed.

Lemma set_bpm_consistent b s : consistent (Sequencer.set_bpm b s).
Proof.
  unfold consistent. simpl. apply Forall_fmap, Forall_forall.
  intros c _. apply set_bpm_duration.
Qed.

Lemma on_channel_keeps {A} (p : Channel.t → A) i f st :
  (∀ c e, p (f c e).1 = p c) →
  p <$> Sequencer.channels (sequencer_of (on_channel i f st))
  = p <$> Sequencer.channels (sequencer_of st).
Proof.
  intros Hf. unfold on_channel.
  destruct (Sequencer.channels (sequencer_of st) !! i) as [c|] eqn:Hi; [|done].
  pose proof (Hf c (env_of st)) as Hc. destruct (f c (env_of st)) as [c' env'].
  cbn [fst] in Hc. cbn [sequencer_of Sequencer.channels].
  rewrite list_fmap_insert, Hc. apply list_insert_id. by rewrite list_lookup_fmap, Hi.
Qed.

Lemma on_channel_bpm i f st :
  Sequencer.get_bpm (sequencer_of (on_channel i f st)) = Sequencer.get_bpm (sequencer_of st).
Proof.
  unfold on_channel. destruct (_ !! i); [|done]. by destruct (f _ _).
Qed.

Lemma fire_keeps {A} (p : Channel.t → A) id st :
  (∀ this c e, p (Channel.playBeat this c e).1 = p c) →
  (∀ c, p (Channel.with_sound (Sound.stop (Channel.sound c)) c) = p c) →
  p <$> Sequencer.channels (sequencer_of (fire id st))
  = p <$> Sequencer.channels (sequencer_of st).
Proof.
  intros Hplay Hstop. unfold fire. destruct (timers (env_of st) !! id) as [tm|]; [|done].
  destruct (handler tm) as [i|i]; simpl.
  - rewrite on_channel_keeps by (intros c e; apply Hstop). by destruct (repeating tm).
  - rewrite on_channel_keeps by (intros c e; apply Hplay). by destruct (repeating tm).
Qed.

Lemma fire_bpm id st :
  Sequencer.get_bpm (sequencer_of (fire id st)) = Sequencer.get_bpm (sequencer_of st).
Proof.
  unfold fire. destruct (timers (env_of st) !! id) as [tm|]; [|done].
  destruct (handler tm) as [i|i]; simpl; rewrite on_channel_bpm; by destruct (repeating tm).
Qed.

(** Apart from a tempo change, no action touches the tempo or a step duration. *)
Lemma step_keeps_tempo a st :
  (∀ b, a ≠ SetTempo b) →
  Sequencer.get_bpm (sequencer_of (step a st)) = Sequencer.get_bpm (sequencer_of st)
  ∧ Channel.duration <$> Sequencer.channels (sequencer_of (step a st))
    = Channel.duration <$> Sequencer.channels (sequencer_of st).
Proof.
  intros Hne. destruct a as [| |b|i|i l|i k v|id]; simpl.
  - unfold Sequencer.play.
    pose proof (forEach_keeps Channel.duration Channel.loop 0
                  (Sequencer.channels (sequencer_of st)) (env_of st)) as H.
    destruct (Sequencer.forEach _ 0 _ _). simpl in *. split; [done|]. by apply H.
  - unfold Sequencer.stop.
    pose proof (forEach_keeps Channel.duration (λ _, Channel.stop) 0
                  (Sequencer.channels (sequencer_of st)) (env_of st)) as H.
    destruct (Sequencer.forEach _ 0 _ _). simpl in *. split; [done|]. by apply H.
  - by destruct (Hne b).
  - split; [apply on_channel_bpm | by apply on_channel_keeps].
  - split; [done|].
    rewrite (list_fmap_alter _ _ id); [apply list_alter_id; done|].
    apply Forall_forall. by intros c _.
  - split; [done|].
    rewrite (list_fmap_alter _ _ id); [apply list_alter_id; done|].
    apply Forall_forall. by intros c _.
  - split; [apply fire_bpm|].
    apply fire_keeps; [apply playBeat_duration | done].
Qed.

Lemma reachable_consistent st : reachable st → consistent (sequencer_of st).
Proof.
  induction 1 as [cs bpm|a st _ IH]; [apply set_bpm_consistent|].
  assert (Hother : (∀ b, a ≠ SetTempo b) → consistent (sequencer_of (step a st))).
  { intros Hne. destruct (step_keeps_tempo a st Hne) as [Hb Hd].
    by apply (consistent_transfer (sequencer_of st)). }
  destruct a as [| |b|i|i l|i k v|id]; try (by apply Hother).
  apply set_bpm_consistent.
Qed.

(** *** Comparing doubles *)

Lemma SFcompare_antisym x y c :
  SpecFloat.SFcompare x y = Some c → SpecFloat.SFcompare y x = Some (CompOpp c).
Proof.
  destruct x as [sx|sx| |sx mx ex], y as [sy|sy| |sy my ey]; simpl;
    try discriminate; try (intros [= <-]; by repeat (destruct sx || destruct sy)).
  intros [= <-]. f_equal.
  destruct sx, sy; try reflexivity;
    rewrite (Z.compare_antisym ex ey); destruct (ex ?= ey)%Z; simpl; try reflexivity.
  - rewrite CompOpp_involutive. rewrite Pos.compare_cont_antisym. reflexivity.
  - rewrite Pos.compare_cont_antisym. reflexivity.
Qed.

Lemma leb_not_gt x y : (x <=? y)%float = true → (y <? x)%float = false.
Proof.
  rewrite leb_spec, ltb_spec. unfold SpecFloat.SFleb, SpecFloat.SFltb.
  destruct (SpecFloat.SFcompare (Prim2SF x) (Prim2SF y)) as [c|] eqn:Hc; [|discriminate].
  rewrite (SFcompare_antisym _ _ _ Hc). by destruct c.
Qed.

Lemma float_2_is_not_1 : 2%float ≠ 1%float.
Proof.
  intros H. pose proof (f_equal (λ x, (x =? 1)%float) H) as H'.
  vm_compute in H'. discriminate.
Qed.

(** *** The timer table *)

Lemma initial_env_ok : env_ok initial_env.
Proof. intros id [t Ht]. simpl in Ht. by rewrite lookup_empty in Ht. Qed.

Lemma add_timer_env_ok t env : env_ok env → env_ok (add_timer t env).2.
Proof.
  intros Hok id. simpl. rewrite lookup_insert. case_decide as Hid.
  - subst. lia.
  - intros H%Hok. lia.
Qed.

Lemma emit_env_ok x env : env_ok env → env_ok (emit x env).
Proof. intros Hok. exact Hok. Qed.

Lemma clearInterval_env_ok h env : env_ok env → env_ok (clearInterval h env).
Proof.
  intros Hok. destruct h as [j|]; [|done]. intros id. simpl.
  rewrite lookup_delete. case_decide; [by intros [? ?]|apply Hok].
Qed.

Lemma play_env_ok this duration volume s env :
  env_ok env → env_ok (Sound.play this duration volume s env).2.
Proof. intros Hok. unfold Sound.play. simpl. by apply (add_timer_env_ok _ (emit _ env)). Qed.

Lemma playBeat_env_ok this c env : env_ok env → env_ok (Channel.playBeat this c env).2.
Proof.
  intros Hok id. rewrite playBeat_timers, playBeat_next_id, lookup_insert.
  case_decide as Hid.
  - subst. lia.
  - intros H%Hok. lia.
Qed.

Lemma loop_env_ok this c env : env_ok env → env_ok (Channel.loop this c env).2.
Proof. intros Hok. unfold Channel.loop. simpl. by apply add_timer_env_ok. Qed.

Lemma stop_env_ok c env : env_ok env → env_ok (Channel.stop c env).2.
Proof. intros Hok. unfold Channel.stop. simpl. by apply clearInterval_env_ok. Qed.

Lemma on_channel_env i f st :
  env_of (on_channel i f st)
  = match channel_at i st with
    | Some c => (f c (env_of st)).2
    | None => env_of st
    end.
Proof.
  unfold on_channel, channel_at. destruct (_ !! i) as [c|]; [|done].
  by destruct (f c (env_of st)).
Qed.

Lemma on_channel_channel i f st c :
  channel_at i st = Some c →
  channel_at i (on_channel i f st) = Some (f c (env_of st)).1.
Proof.
  unfold on_channel, channel_at. intros Hi. rewrite Hi.
  destruct (f c (env_of st)) as [c' env']. simpl.
  apply list_lookup_insert_eq. by eapply lookup_lt_Some.
Qed.

Lemma on_channel_env_ok i f st :
  (∀ c e, env_ok e → env_ok (f c e).2) →
  env_ok (env_of st) → env_ok (env_of (on_channel i f st)).
Proof.
  intros Hf Hok. rewrite on_channel_env. destruct (channel_at i st); [by apply Hf | done].
Qed.

Lemma fire_env_ok id st : env_ok (env_of st) → env_ok (env_of (fire id st)).
Proof.
  intros Hok. unfold fire. destruct (timers (env_of st) !! id) as [tm|]; [|done].
  assert (Hok1 : env_ok (env_of
            (if repeating tm then st
             else {| sequencer_of := sequencer_of st;
                     env_of := {| timers := delete id (timers (env_of st));
                                  next_id := next_id (env_of st);
                                  trace := trace (env_of st) |} |}))).
  { destruct (repeating tm); [done|]. apply (clearInterval_env_ok (Some id)), Hok. }
  destruct (handler tm) as [i|i]; simpl; apply on_channel_env_ok; try done.
  intros c e. apply playBeat_env_ok.
Qed.

Lemma step_env_ok a st : env_ok (env_of st) → env_ok (env_of (step a st)).
Proof.
  intros Hok. destruct a as [| |b|i|i l|i k v|id]; simpl; try done.
  - unfold Sequencer.play.
    pose proof (forEach_env_invariant env_ok Channel.loop 0
                  (Sequencer.channels (sequencer_of st)) (env_of st)) as H.
    destruct (Sequencer.forEach _ 0 _ _) as [cs' env']. simpl in *. apply H; [|done].
    intros j c0 e0. apply loop_env_ok.
  - unfold Sequencer.stop.
    pose proof (forEach_env_invariant env_ok (λ _, Channel.stop) 0
                  (Sequencer.channels (sequencer_of st)) (env_of st)) as H.
    destruct (Sequencer.forEach _ 0 _ _) as [cs' env']. simpl in *. apply H; [|done].
    intros j c0 e0. apply stop_env_ok.
  - by apply on_channel_env_ok.
  - by apply fire_env_ok.
Qed.

Lemma reachable_env_ok st : reachable st → env_ok (env_of st).
Proof.
  induction 1 as [cs bpm|a st _ IH]; [apply initial_env_ok | by apply step_env_ok].
Qed.

Lemma initial_state_reachable : reachable initial_state.
Proof.
  change initial_state with
    (run [SetSequence 0 afrika_hat;
          SetSequence 1 [1; 0; 0; 0; 0; 0; 1; 0; 0; 0; 0; 0; 0; 0; 0; 0]%Z;
          SetSequence 2 [0; 0; 0; 0; 1; 0; 0; 0; 0; 0; 0; 0; 1; 0; 0; 0]%Z;
          SetSequence 7 [1; 0; 1; 0; 1; 0; 1; 1; 0; 1; 0; 1; 1; 0; 1; 0]%Z]
         {| sequencer_of :=
              Sequencer.new (construct <$> ((λ s, (s, None, None)) <$> sounds)) None;
            env_of := initial_env |}).
  unfold run. cbn [foldl]. repeat apply reachable_step. apply reachable_new.
Qed.

Lemma stop_silences s : silenced (Sound.stop s).
Proof. by repeat split. Qed.

(** *** Invariants of the reachable states *)

Lemma forEach_Forall (P : Channel.t → Prop) f i cs env :
  (∀ j c e, P c → P (f j c e).1) →
  Forall P cs → Forall P (Sequencer.forEach f i cs env).1.
Proof.
  intros Hf. revert i env. induction cs as [|c cs IH]; intros i env Hcs; [done|].
  apply Forall_cons in Hcs as [Hc Hcs]. cbn [Sequencer.forEach].
  pose proof (Hf i c env Hc) as Hc'. destruct (f i c env) as [c' env1].
  specialize (IH (S i) env1 Hcs). destruct (Sequencer.forEach f (S i) cs env1) as [cs' env2].
  by apply Forall_cons.
Qed.

Lemma on_channel_Forall (P : Channel.t → Prop) i f st :
  (∀ c e, P c → P (f c e).1) →
  Forall P (Sequencer.channels (sequencer_of st)) →
  Forall P (Sequencer.channels (sequencer_of (on_channel i f st))).
Proof.
  intros Hf Hcs. unfold on_channel.
  destruct (Sequencer.channels (sequencer_of st) !! i) as [c|] eqn:Hi; [|done].
  pose proof (Hf c (env_of st)) as Hc. destruct (f c (env_of st)) as [c' env'].
  cbn [sequencer_of Sequencer.channels]. apply Forall_insert; [done|].
  apply Hc. by eapply Forall_lookup_1.
Qed.

Lemma step_events_ok a st :
  Forall events_ok (Sequencer.channels (sequencer_of st)) →
  Forall events_ok (Sequencer.channels (sequencer_of (step a st))).
Proof.
  intros Hok. destruct a as [| |b|i|i l|i k v|id]; simpl.
  - unfold Sequencer.play.
    pose proof (forEach_Forall events_ok Channel.loop 0
                  (Sequencer.channels (sequencer_of st)) (env_of st)) as H.
    destruct (Sequencer.forEach _ 0 _ _) as [cs' env']. simpl in *. apply H; [|done].
    intros j c0 e0. exact (loop_events_ok j c0 e0).
  - unfold Sequencer.stop.
    pose proof (forEach_Forall events_ok (λ _, Channel.stop) 0
                  (Sequencer.channels (sequencer_of st)) (env_of st)) as H.
    destruct (Sequencer.forEach _ 0 _ _) as [cs' env']. simpl in *. apply H; [|done].
    intros j c0 e0. exact (stop_events_ok c0 e0).
  - apply Forall_fmap. eapply Forall_impl; [exact Hok|].
    intros c. apply set_bpm_events_ok.
  - apply on_channel_Forall; [|done]. intros c e. apply clear_events_ok.
  - apply Forall_alter; [done|]. intros c _. apply with_sequence_events_ok.
  - apply Forall_alter; [done|]. intros c _. apply with_sequence_events_ok.
  - unfold fire. destruct (timers (env_of st) !! id) as [tm|]; [|done].
    destruct (handler tm) as [i|i]; simpl; apply on_channel_Forall.
    + intros c e Hc. exact Hc.
    + by destruct (repeating tm).
    + intros c e. apply playBeat_events_ok.
    + by destruct (repeating tm).
Qed.

Lemma reachable_events_ok st :
  reachable st → Forall events_ok (Sequencer.channels (sequencer_of st)).
Proof.
  induction 1 as [args bpm|a st _ IH]; [|by apply step_events_ok].
  simpl. apply Forall_fmap, Forall_fmap, Forall_forall.
  intros a _. apply set_bpm_events_ok, new_events_ok.
Qed.

(** *** Timer handles *)

Lemma env_grows_refl env : env_grows env env.
Proof. by split. Qed.

Lemma env_grows_trans e1 e2 e3 : env_grows e1 e2 → env_grows e2 e3 → env_grows e1 e3.
Proof.
  intros [Hn1 Ht1] [Hn2 Ht2]. split; [lia|].
  intros j t Hj Ht. apply Ht1; [done|]. apply Ht2; [lia|done].
Qed.

Lemma handle_ok_grows env env' c : env_grows env env' → handle_ok env c → handle_ok env' c.
Proof.
  intros [Hn Ht] Hc j Hj. destruct (Hc j Hj) as [Hlt Hrep].
  split; [lia|]. intros t Hjt. apply Hrep. by apply Ht.
Qed.

Lemma add_timer_grows t env : env_grows env (add_timer t env).2.
Proof.
  split; simpl; [lia|]. intros j t' Hj. rewrite lookup_insert_ne by lia. done.
Qed.

Lemma clearInterval_grows h env : env_grows env (clearInterval h env).
Proof.
  destruct h as [k|]; [|apply env_grows_refl]. split; simpl; [lia|].
  intros j t _. rewrite lookup_delete. by case_decide.
Qed.

Lemma playBeat_grows this c env : env_grows env (Channel.playBeat this c env).2.
Proof.
  split; [rewrite playBeat_next_id; lia|].
  intros j t Hj. rewrite playBeat_timers, lookup_insert_ne by lia. done.
Qed.

Lemma loop_grows this c env : env_grows env (Channel.loop this c env).2.
Proof. apply add_timer_grows. Qed.

Lemma stop_grows c env : env_grows env (Channel.stop c env).2.
Proof. apply clearInterval_grows. Qed.

Lemma loop_handle_ok this c env : handle_ok (Channel.loop this c env).2 (Channel.loop this c env).1.
Proof.
  intros j. simpl. intros [= <-]. split; [lia|].
  intros t. rewrite lookup_insert_eq. by intros [= <-].
Qed.

Lemma playBeat_handle_ok this c env :
  handle_ok env c → handle_ok (Channel.playBeat this c env).2 (Channel.playBeat this c env).1.
Proof.
  intros Hc j. rewrite playBeat_interval. intros Hj.
  by apply (handle_ok_grows env _ c (playBeat_grows this c env) Hc).
Qed.

Lemma forEach_grows f i cs env :
  (∀ j c e, env_grows e (f j c e).2) →
  env_grows env (Sequencer.forEach f i cs env).2.
Proof.
  intros Hf. revert i env. induction cs as [|c cs IH]; intros i env; [apply env_grows_refl|].
  cbn [Sequencer.forEach]. pose proof (Hf i c env) as Hc. destruct (f i c env) as [c' env1].
  specialize (IH (S i) env1). destruct (Sequencer.forEach f (S i) cs env1) as [cs' env2].
  by eapply env_grows_trans.
Qed.

Lemma forEach_handle_ok f i cs env :
  (∀ j c e, env_grows e (f j c e).2) →
  (∀ j c e, handle_ok e c → handle_ok (f j c e).2 (f j c e).1) →
  Forall (handle_ok env) cs →
  Forall (handle_ok (Sequencer.forEach f i cs env).2) (Sequencer.forEach f i cs env).1.
Proof.
  intros Hgrow Hf. revert i env. induction cs as [|c cs IH]; intros i env Hcs; [done|].
  apply Forall_cons in Hcs as [Hc Hcs]. cbn [Sequencer.forEach].
  pose proof (Hf i c env Hc) as Hc'. pose proof (Hgrow i c env) as Hg.
  destruct (f i c env) as [c' env1]. cbn [fst snd] in *.
  assert (Hcs1 : Forall (handle_ok env1) cs).
  { eapply Forall_impl; [exact Hcs|]. intros c0. by apply handle_ok_grows. }
  specialize (IH (S i) env1 Hcs1).
  pose proof (forEach_grows f (S i) cs env1 Hgrow) as Hg2.
  destruct (Sequencer.forEach f (S i) cs env1) as [cs' env2]. cbn [fst snd] in *.
  apply Forall_cons. split; [|done]. by apply (handle_ok_grows env1).
Qed.

Lemma on_channel_handle_ok i f st :
  (∀ c e, env_grows e (f c e).2) →
  (∀ c e, handle_ok e c → handle_ok (f c e).2 (f c e).1) →
  Forall (handle_ok (env_of st)) (Sequencer.channels (sequencer_of st)) →
  Forall (handle_ok (env_of (on_channel i f st)))
         (Sequencer.channels (sequencer_of (on_channel i f st))).
Proof.
  intros Hgrow Hf Hcs. unfold on_channel.
  destruct (Sequencer.channels (sequencer_of st) !! i) as [c|] eqn:Hi; [|done].
  pose proof (Hf c (env_of st)) as Hc. pose proof (Hgrow c (env_of st)) as Hg.
  destruct (f c (env_of st)) as [c' env']. cbn [fst snd sequencer_of env_of Sequencer.channels] in *.
  apply Forall_insert.
  - eapply Forall_impl; [exact Hcs|]. intros c0. by apply handle_ok_grows.
  - apply Hc. by eapply Forall_lookup_1.
Qed.

Lemma step_handle_ok a st :
  Forall (handle_ok (env_of st)) (Sequencer.channels (sequencer_of st)) →
  Forall (handle_ok (env_of (step a st))) (Sequencer.channels (sequencer_of (step a st))).
Proof.
  intros Hok. destruct a as [| |b|i|i l|i k v|id]; simpl.
  - unfold Sequencer.play.
    pose proof (forEach_handle_ok Channel.loop 0
                  (Sequencer.channels (sequencer_of st)) (env_of st)) as H.
    destruct (Sequencer.forEach _ 0 _ _) as [cs' env']. simpl in *. apply H; [| |done].
    + intros j c0 e0. apply loop_grows.
    + intros j c0 e0 _. apply loop_handle_ok.
  - unfold Sequencer.stop.
    pose proof (forEach_handle_ok (λ _, Channel.stop) 0
                  (Sequencer.channels (sequencer_of st)) (env_of st)) as H.
    destruct (Sequencer.forEach _ 0 _ _) as [cs' env']. simpl in *. apply H; [| |done].
    + intros j c0 e0. apply stop_grows.
    + intros j c0 e0. apply (handle_ok_grows e0 _ c0), stop_grows.
  - apply Forall_fmap. eapply Forall_impl; [exact Hok|].
    intros c Hc j. simpl. rewrite set_bpm_interval. apply Hc.
  - apply on_channel_handle_ok; [intros; apply env_grows_refl | by intros c e | done].
  - apply Forall_alter; [done|]. by intros c _.
  - apply Forall_alter; [done|]. by intros c _.
  - unfold fire. destruct (timers (env_of st) !! id) as [tm|] eqn:Hid; [|done].
    assert (Hok1 : Forall (handle_ok (env_of
              (if repeating tm then st
               else {| sequencer_of := sequencer_of st;
                       env_of := {| timers := delete id (timers (env_of st));
                                    next_id := next_id (env_of st);
                                    trace := trace (env_of st) |} |})))
              (Sequencer.channels (sequencer_of
              (if repeating tm then st
               else {| sequencer_of := sequencer_of st;
                       env_of := {| timers := delete id (timers (env_of st));
                                    next_id := next_id (env_of st);
                                    trace := trace (env_of st) |} |})))).
    { destruct (repeating tm); [done|]. simpl.
      eapply Forall_impl; [exact Hok|]. intros c.
      apply handle_ok_grows, (clearInterval_grows (Some id)). }
    destruct (handler tm) as [i|i]; simpl; apply on_channel_handle_ok.
    + intros; apply env_grows_refl.
    + intros c e Hc. exact Hc.
    + exact Hok1.
    + intros c e. apply playBeat_grows.
    + intros c e. apply playBeat_handle_ok.
    + exact Hok1.
Qed.

Lemma reachable_handle_ok st :
  reachable st → Forall (handle_ok (env_of st)) (Sequencer.channels (sequencer_of st)).
Proof.
  induction 1 as [args bpm|a st _ IH]; [|by apply step_handle_ok].
  simpl. apply Forall_fmap, Forall_fmap, Forall_forall.
  intros a _ j. simpl. unfold construct, Channel.new. rewrite !set_bpm_interval. done.
Qed.

(** A timer that [playBeat] or [loop] adds gets a fresh id, so it does not
    replace a pending one. *)
Lemma forEach_loop_keeps_timer id t i cs env :
  env_ok env → timers env !! id = Some t →
  timers (Sequencer.forEach Channel.loop i cs env).2 !! id = Some t.
Proof.
  intros Hok Hid.
  apply (forEach_env_invariant (λ e, env_ok e ∧ timers e !! id = Some t)); [|done].
  intros j c e [Hoke He]. split; [by apply loop_env_ok|].
  simpl. rewrite lookup_insert_ne; [done|].
  pose proof (Hoke id) as Hlt. rewrite He in Hlt. specialize (Hlt (mk_is_Some _ _ eq_refl)). lia.
Qed.

(** [stop] clears interval handles, and those never name a one-shot timer. *)
Lemma forEach_stop_keeps_oneshot id t i cs env :
  Forall (handle_ok env) cs →
  timers env !! id = Some t → repeating t = false →
  timers (Sequencer.forEach (λ _, Channel.stop) i cs env).2 !! id = Some t.
Proof.
  intros Hcs Hid Hone. revert i env Hcs Hid.
  induction cs as [|c cs IH]; intros i env Hcs Hid; [done|].
  apply Forall_cons in Hcs as [Hc Hcs]. cbn [Sequencer.forEach Channel.stop].
  assert (Hid1 : timers (clearInterval (Channel.interval c) env) !! id = Some t).
  { destruct (Channel.interval c) as [j|] eqn:Hj; [|done]. simpl.
    rewrite lookup_delete_ne; [done|]. intros ->.
    destruct (Hc id Hj) as [_ Hrep]. specialize (Hrep t Hid). congruence. }
  assert (Hcs1 : Forall (handle_ok (clearInterval (Channel.interval c) env)) cs).
  { eapply Forall_impl; [exact Hcs|]. intros c0.
    apply handle_ok_grows, clearInterval_grows. }
  specialize (IH (S i) _ Hcs1 Hid1).
  by destruct (Sequencer.forEach _ (S i) cs _) as [cs' env2].
Qed.

(** *** One tick, by the cell at the cursor *)

(** What a tick does on a cell that holds 1 and on a cell that holds 0, for
    a Channel whose event cache is in order. *)
Lemma playBeat_by_cell (this : ref) (c : Channel.t) (env : Env) :
  events_ok c →
  let r := Channel.playBeat this c env in
  let ev := beat_event (Sound.name (Channel.sound c)) (Channel.beat c) in
  (Channel.sequence c !! Channel.beat c = Some 1%Z →
   trace r.2 = trace env ++ [DispatchEvent ev; AudioPlay this 1]
   ∧ notifications (trace r.2) = notifications (trace env) ++ [ev]
   ∧ (Channel.sound r.1, r.2)
     = Sound.play this (Some (Channel.duration c)) None (Channel.sound c)
                  (dispatchEvent ev env))
  ∧ (Channel.sequence c !! Channel.beat c = Some 0%Z →
     trace r.2 = trace env ++ [AudioPlay this 0]
     ∧ notifications (trace r.2) = notifications (trace env)
     ∧ (Channel.sound r.1, r.2)
       = Sound.play this (Some (Channel.duration c)) (Some 0%float) (Channel.sound c) env).
Proof.
  intros Hok r ev. split; intros Hcell.
  - assert (Htr : trace r.2 = trace env ++ [DispatchEvent ev; AudioPlay this 1]).
    { apply playBeat_audible; [done|]. by rewrite Hcell. }
    split_and!; [done| |].
    + rewrite Htr. unfold notifications. by rewrite omap_app.
    + assert (Hev : default ev (Channel.events c !! Channel.beat c) = ev).
      { destruct (Channel.events c !! Channel.beat c) as [e|] eqn:He; simpl; [|done].
        apply (Hok _ _ He). }
      unfold r, Channel.playBeat. rewrite Hcell.
      change {| type := Channel.eventName (Sound.name (Channel.sound c)) (Channel.beat c) |}
        with ev.
      cbn [Channel.truthy Z.eqb negb]. rewrite Hev.
      unfold Sound.play. simpl. case_bool_decide; reflexivity.
  - assert (Htr : trace r.2 = trace env ++ [AudioPlay this 0]).
    { apply playBeat_silent. by rewrite Hcell. }
    split_and!; [done| |].
    + rewrite Htr. unfold notifications. rewrite omap_app. simpl. by rewrite app_nil_r.
    + unfold r, Channel.playBeat. rewrite Hcell. simpl.
      unfold Sound.play. simpl. case_bool_decide; reflexivity.
Qed.

(** What a tick leaves of the Voice. *)
Lemma playBeat_audio this c env :
  Sound.paused (Sound.audio (Channel.sound (Channel.playBeat this c env).1)) = false
  ∧ Sound.currentTime (Sound.audio (Channel.sound (Channel.playBeat this c env).1))
    = Sound.currentTime (Sound.audio (Channel.sound c))
  ∧ Sound.volume (Sound.audio (Channel.sound (Channel.playBeat this c env).1))
    = level_of (Channel.sequence c) (Channel.beat c).
Proof.
  unfold Channel.playBeat, Sound.play, level_of.
  destruct (Channel.truthy _); simpl; case_bool_decide; done.
Qed.

(** *** The names of the events *)

Lemma pretty_N_char_dashless x : pretty_N_char x ≠ "-"%char.
Proof. unfold pretty_N_char. by repeat case_match. Qed.

Lemma pretty_N_go_dashless x s : dashless s → dashless (pretty_N_go x s).
Proof.
  revert s. induction (N.lt_wf_0 x) as [x _ IH]; intros s Hs.
  assert (x = 0 ∨ 0 < x)%N as [->|Hx] by lia.
  - by rewrite pretty_N_go_0.
  - rewrite pretty_N_go_step by done. apply IH.
    + by apply N.div_lt.
    + split; [apply pretty_N_char_dashless | done].
Qed.

Lemma pretty_nat_dashless (n : nat) : dashless (pretty n).
Proof.
  unfold pretty, pretty_nat, pretty, pretty_N. case_decide.
  - by split.
  - by apply pretty_N_go_dashless.
Qed.

Lemma dashless_no_dash n p : ¬ dashless (n +:+ String "-" p).
Proof. induction n as [|a n IH]; simpl; [by intros [? _] | by intros [_ ?]]. Qed.

Lemma app_dash_split n1 n2 p1 p2 :
  dashless p1 → dashless p2 →
  n1 +:+ String "-" p1 = n2 +:+ String "-" p2 → n1 = n2 ∧ p1 = p2.
Proof.
  intros H1 H2. revert n2.
  induction n1 as [|a n1 IH]; intros [|b n2]; simpl; intros H.
  - by injection H.
  - injection H as _ ->. by destruct (dashless_no_dash n2 p2).
  - injection H as _ <-. by destruct (dashless_no_dash n1 p1).
  - injection H as <- H. by destruct (IH n2 H) as [-> ->].
Qed.

Lemma eventName_inj n1 n2 i j :
  Channel.eventName n1 i = Channel.eventName n2 j → n1 = n2 ∧ i = j.
Proof.
  unfold Channel.eventName. intros H. apply (inj (String.app "beat-")) in H.
  apply app_dash_split in H as [-> H]; try apply pretty_nat_dashless.
  split; [done|]. by apply (inj pretty) in H.
Qed.

(** *** The clock *)

Lemma timeout_ms_nonneg x : (0 ≤ timeout_ms x)%Z.
Proof.
  unfold timeout_ms. destruct (Prim2SF x) as [s|s| |[] m e]; try done.
  cbv zeta. case_match; [|done].
  apply Z.mod_pos_bound. done.
Qed.

Lemma timeout_ms_on_time x : (0 <=? x)%float = true → ms_le (timeout_ms x) x.
Proof.
  rewrite leb_spec. unfold ms_le, timeout_ms.
  change (Prim2SF 0) with (S754_zero false).
  destruct (Prim2SF x) as [s|s| |s m e]; simpl; try done.
  - by destruct s.
  - destruct s; [done|]. intros _.
    assert (H32 : (0 < 2 ^ 32)%Z) by done.
    destruct (0 <=? e)%Z eqn:He.
    + apply Z.leb_le in He.
      assert (Hn : (0 ≤ Z.pos m * 2 ^ e)%Z) by (apply Z.mul_nonneg_nonneg; [lia | by apply Z.pow_nonneg]).
      pose proof (Z.mod_le _ _ Hn H32). case_match; lia.
    + apply Z.leb_gt in He.
      assert (Hp : (0 < 2 ^ (- e))%Z) by (apply Z.pow_pos_nonneg; lia).
      assert (Hn : (0 ≤ Z.pos m / 2 ^ (- e))%Z) by (apply Z.div_pos; lia).
      pose proof (Z.mod_le _ _ Hn H32).
      pose proof (Z.mul_div_le (Z.pos m) _ Hp).
      case_match; nia.
Qed.

Lemma fire_voice_env i duration volume c env :
  (fire_voice i duration volume c env).2
  = (Sound.play i duration volume (Channel.sound c) env).2.
Proof. reflexivity. Qed.

Lemma fire_voice_timers i duration volume c env :
  timers (fire_voice i duration volume c env).2
  = <[next_id env := {| handler := StopSound i;
                        delay := (default 1000 duration - 10)%float;
                        repeating := false |}]> (timers env).
Proof. reflexivity. Qed.

Lemma fire_voice_next_id i duration volume c env :
  next_id (fire_voice i duration volume c env).2 = S (next_id env).
Proof. reflexivity. Qed.

Lemma fire_voice_grows i duration volume c env :
  env_grows env (fire_voice i duration volume c env).2.
Proof.
  split; [rewrite fire_voice_next_id; lia|].
  intros j t Hj. rewrite fire_voice_timers, lookup_insert_ne by lia. done.
Qed.

Lemma on_channel_grows i f st :
  (∀ c e, env_grows e (f c e).2) →
  env_grows (env_of st) (env_of (on_channel i f st)).
Proof.
  intros Hf. rewrite on_channel_env. destruct (channel_at i st); [apply Hf | apply env_grows_refl].
Qed.

Lemma fire_grows id st : env_grows (env_of st) (env_of (fire id st)).
Proof.
  unfold fire. destruct (timers (env_of st) !! id) as [tm|]; [|apply env_grows_refl].
  eapply env_grows_trans; [|destruct (handler tm) as [i|i]; simpl; apply on_channel_grows].
  - destruct (repeating tm); [apply env_grows_refl|]. apply (clearInterval_grows (Some id)).
  - intros c e. apply env_grows_refl.
  - intros c e. apply playBeat_grows.
Qed.

Lemma step_grows a st : env_grows (env_of st) (env_of (step a st)).
Proof.
  destruct a as [| |b|i|i l|i k v|id]; simpl; try apply env_grows_refl.
  - unfold Sequencer.play.
    pose proof (forEach_grows Channel.loop 0 (Sequencer.channels (sequencer_of st))
                  (env_of st)) as H.
    destruct (Sequencer.forEach _ 0 _ _) as [cs' env']. apply H.
    intros j c e. apply loop_grows.
  - unfold Sequencer.stop.
    pose proof (forEach_grows (λ _, Channel.stop) 0 (Sequencer.channels (sequencer_of st))
                  (env_of st)) as H.
    destruct (Sequencer.forEach _ 0 _ _) as [cs' env']. apply H.
    intros j c e. apply stop_grows.
  - apply on_channel_grows. intros c e. apply env_grows_refl.
  - apply fire_grows.
Qed.

Lemma step_state_ok a st : state_ok st → state_ok (step a st).
Proof. intros [Henv Hh]. split; [by apply step_env_ok | by apply step_handle_ok]. Qed.

Lemma call_state_ok i duration volume st :
  state_ok st → state_ok (on_channel i (fire_voice i duration volume) st).
Proof.
  intros [Henv Hh]. split.
  - apply on_channel_env_ok; [|done]. intros c e. apply play_env_ok.
  - apply on_channel_handle_ok; [| |done].
    + intros c e. apply fire_voice_grows.
    + intros c e Hc. apply (handle_ok_grows e); [apply fire_voice_grows | exact Hc].
Qed.

Lemma reachable_state_ok st : reachable st → state_ok st.
Proof. intros H. split; [by apply reachable_env_ok | by apply reachable_handle_ok]. Qed.

(** Nothing but its own run takes a pending one-shot timer out of the table,
    whatever the state it is pending in. *)
Lemma oneshot_survives st id t a :
  state_ok st →
  timers (env_of st) !! id = Some t → repeating t = false →
  a ≠ Fire id →
  timers (env_of (step a st)) !! id = Some t.
Proof.
  intros [Hok Hhandles] Hid Hone Ha.
  assert (Hlt : id < next_id (env_of st)) by (apply Hok; by rewrite Hid).
  destruct a as [| |b|i|i l|i k v|id']; simpl; try done.
  - unfold Sequencer.play.
    pose proof (forEach_loop_keeps_timer id t 0 (Sequencer.channels (sequencer_of st))
                  (env_of st) Hok Hid) as H.
    by destruct (Sequencer.forEach _ 0 _ _) as [cs' env'].
  - unfold Sequencer.stop.
    pose proof (forEach_stop_keeps_oneshot id t 0 (Sequencer.channels (sequencer_of st))
                  (env_of st) Hhandles Hid Hone) as H.
    by destruct (Sequencer.forEach _ 0 _ _) as [cs' env'].
  - rewrite on_channel_env. by destruct (channel_at i st).
  - assert (Hne : id' ≠ id) by congruence.
    unfold fire. destruct (timers (env_of st) !! id') as [tm|]; [|done].
    destruct (handler tm) as [i|i]; simpl; rewrite on_channel_env.
    + destruct (channel_at i _); simpl; destruct (repeating tm); simpl;
        rewrite ?lookup_delete_ne by done; done.
    + destruct (channel_at i _); simpl.
      * rewrite playBeat_timers, lookup_insert_ne.
        -- destruct (repeating tm); simpl; rewrite ?lookup_delete_ne by done; done.
        -- destruct (repeating tm); simpl; lia.
      * destruct (repeating tm); simpl; rewrite ?lookup_delete_ne by done; done.
Qed.

Lemma call_keeps_timer i duration volume st id t :
  state_ok st →
  timers (env_of st) !! id = Some t →
  timers (env_of (on_channel i (fire_voice i duration volume) st)) !! id = Some t.
Proof.
  intros [Hok _] Hid.
  assert (Hlt : id < next_id (env_of st)) by (apply Hok; by rewrite Hid).
  rewrite on_channel_env. destruct (channel_at i st); [|done].
  rewrite fire_voice_timers, lookup_insert_ne by lia. done.
Qed.

(** The Channels stay where they are. *)
Lemma on_channel_length i f st :
  length (Sequencer.channels (sequencer_of (on_channel i f st)))
  = length (Sequencer.channels (sequencer_of st)).
Proof.
  unfold on_channel. destruct (_ !! i) as [c|]; [|done].
  destruct (f c (env_of st)). simpl. apply length_insert.
Qed.

Lemma step_length a st :
  length (Sequencer.channels (sequencer_of (step a st)))
  = length (Sequencer.channels (sequencer_of st)).
Proof.
  destruct a as [| |b|i|i l|i k v|id]; simpl.
  - unfold Sequencer.play.
    pose proof (forEach_length Channel.loop 0 (Sequencer.channels (sequencer_of st))
                  (env_of st)) as H.
    by destruct (Sequencer.forEach _ 0 _ _) as [cs' env'].
  - unfold Sequencer.stop.
    pose proof (forEach_length (λ _, Channel.stop) 0 (Sequencer.channels (sequencer_of st))
                  (env_of st)) as H.
    by destruct (Sequencer.forEach _ 0 _ _) as [cs' env'].
  - apply length_fmap.
  - apply on_channel_length.
  - apply length_alter.
  - apply length_alter.
  - unfold fire. destruct (timers (env_of st) !! id) as [tm|]; [|done].
    destruct (handler tm); simpl; rewrite on_channel_length; by destruct (repeating tm).
Qed.

Lemma channel_at_length i st : is_Some (channel_at i st) ↔ i < length (Sequencer.channels (sequencer_of st)).
Proof. apply lookup_lt_is_Some. Qed.

(** The due times after [arm]. *)
Lemma arm_lookup host now0 due0 env id :
  arm host now0 due0 env !! id
  = (λ t, default (now0 + host (delay t))%Z (due0 !! id)) <$> timers env !! id.
Proof. unfold arm. rewrite map_lookup_imap. by destruct (timers env !! id). Qed.

Lemma arm_ok host now0 due0 env :
  (∀ x, (0 ≤ host x)%Z) →
  (∀ id t, due0 !! id = Some t → (now0 ≤ t)%Z) →
  (∀ id t, arm host now0 due0 env !! id = Some t → (now0 ≤ t)%Z)
  ∧ (∀ id, is_Some (arm host now0 due0 env !! id) → is_Some (timers env !! id)).
Proof.
  intros Hhost Hdue. split.
  - intros id t. rewrite arm_lookup.
    destruct (timers env !! id) as [tm|]; [|done]. simpl. intros [= <-].
    destruct (due0 !! id) as [t0|] eqn:Ht0; simpl; [by eapply Hdue|].
    specialize (Hhost (delay tm)). lia.
  - intros id. rewrite arm_lookup. destruct (timers env !! id); [done|].
    simpl. by intros [? ?].
Qed.

Section Clock.
Variable host : float → Z.
Hypothesis host_nonneg : ∀ x, (0 ≤ host x)%Z.

Lemma clocked_step_ok e k k' :
  clocked_ok k → clocked_step host e k = Some k' → clocked_ok k'.
Proof.
  intros (Hst & Hdue & Hdom) Hstep. destruct e as [a|i d v|dt|id]; simpl in Hstep.
  - assert (Hk' : k' = {| running := step a (running k); now := now k;
                          due := arm host (now k) (due k) (env_of (step a (running k))) |})
      by (destruct a; congruence).
    subst k'. split; [by apply step_state_ok|]. by apply arm_ok.
  - destruct (valid_volume _); injection Hstep as <-; [|done].
    split; [by apply call_state_ok|]. by apply arm_ok.
  - destruct (bool_decide (0 ≤ dt)%Z && _) eqn:Hguard; [|done]. injection Hstep as <-.
    apply andb_true_iff in Hguard as [_ Hall%bool_decide_eq_true].
    split_and!; [done| |done].
    intros id t Ht. simpl. by apply (Hall id t).
  - destruct (due k !! id) as [t|] eqn:Ht; [|done]. case_bool_decide; [|done].
    injection Hstep as <-. split; [by apply (step_state_ok (Fire id))|].
    apply arm_ok; [done|]. intros id' t'. rewrite lookup_delete. case_decide; [done|].
    apply Hdue.
Qed.

Lemma clocked_reachable_ok k : clocked_reachable host k → clocked_ok k.
Proof.
  induction 1 as [args bpm|e k k' _ IH Hstep]; [|by eapply clocked_step_ok].
  split_and!.
  - apply reachable_state_ok, reachable_new.
  - intros id t. simpl. by rewrite lookup_empty.
  - intros id. simpl. rewrite lookup_empty. by intros [? ?].
Qed.

Lemma clocked_step_grows e k k' :
  clocked_step host e k = Some k' →
  env_grows (env_of (running k)) (env_of (running k')).
Proof.
  intros Hstep. destruct e as [a|i d v|dt|id]; simpl in Hstep.
  - assert (Hk' : running k' = step a (running k)) by (destruct a; by simplify_eq).
    rewrite Hk'. apply step_grows.
  - destruct (valid_volume _); injection Hstep as <-; [|apply env_grows_refl].
    simpl. apply on_channel_grows. intros c e. apply fire_voice_grows.
  - destruct (_ && _); [|done]. injection Hstep as <-. apply env_grows_refl.
  - destruct (due k !! id) as [t|]; [|done]. case_bool_decide; [|done].
    injection Hstep as <-. apply (step_grows (Fire id)).
Qed.

Lemma clocked_step_length e k k' :
  clocked_step host e k = Some k' →
  length (Sequencer.channels (sequencer_of (running k')))
  = length (Sequencer.channels (sequencer_of (running k))).
Proof.
  intros Hstep. destruct e as [a|i d v|dt|id]; simpl in Hstep.
  - assert (Hk' : running k' = step a (running k)) by (destruct a; by simplify_eq).
    rewrite Hk'. apply step_length.
  - destruct (valid_volume _); injection Hstep as <-; [|done]. simpl. apply on_channel_length.
  - destruct (_ && _); [|done]. by injection Hstep as <-.
  - destruct (due k !! id) as [t|]; [|done]. case_bool_decide; [|done].
    injection Hstep as <-. apply (step_length (Fire id)).
Qed.

(** A timer that is gone stays gone: its id is not handed out again. *)
Lemma clocked_run_gone evs k k' id :
  id < next_id (env_of (running k)) →
  timers (env_of (running k)) !! id = None →
  clocked_run host evs k = Some k' →
  timers (env_of (running k')) !! id = None.
Proof.
  revert k. induction evs as [|e evs IH]; intros k Hlt Hid Hrun; simpl in Hrun.
  - by injection Hrun as <-.
  - destruct (clocked_step host e k) as [k1|] eqn:Hstep; [|done].
    destruct (clocked_step_grows e k k1 Hstep) as [Hn Ht].
    apply (IH k1); [lia| |done].
    destruct (timers (env_of (running k1)) !! id) as [t|] eqn:Ht1; [|done].
    apply Ht in Ht1; [congruence | done].
Qed.

(** Whatever happens, short of its own run, a pending one-shot timer stays
    pending and due when it was. *)
Lemma clocked_step_keeps_pending e k k' id tm t :
  clocked_ok k →
  timers (env_of (running k)) !! id = Some tm → repeating tm = false →
  due k !! id = Some t →
  e ≠ Run id →
  clocked_step host e k = Some k' →
  timers (env_of (running k')) !! id = Some tm ∧ due k' !! id = Some t ∧ (now k ≤ now k')%Z.
Proof.
  intros (Hst & Hdue & Hdom) Hid Hone Ht He Hstep.
  destruct e as [a|i d v|dt|id']; simpl in Hstep.
  - assert (Hk' : k' = {| running := step a (running k); now := now k;
                          due := arm host (now k) (due k) (env_of (step a (running k))) |})
      by (destruct a; congruence).
    assert (Ha : a ≠ Fire id) by (intros ->; done).
    subst k'. cbn [running due now].
    pose proof (oneshot_survives _ _ _ a Hst Hid Hone Ha) as Hid'.
    split_and!; [done| |done]. by rewrite arm_lookup, Hid', Ht.
  - destruct (valid_volume _); injection Hstep as <-; [|done]. cbn [running due now].
    pose proof (call_keeps_timer i d v _ _ _ Hst Hid) as Hid'.
    split_and!; [done| |done]. by rewrite arm_lookup, Hid', Ht.
  - destruct (bool_decide (0 ≤ dt)%Z && _) eqn:Hguard; [|done]. injection Hstep as <-.
    apply andb_true_iff in Hguard as [Hdt%bool_decide_eq_true _]. simpl. split_and!; [done..|lia].
  - destruct (due k !! id') as [t'|] eqn:Ht'; [|done]. case_bool_decide; [|done].
    injection Hstep as <-. cbn [running due now].
    assert (Hne : id' ≠ id) by congruence.
    assert (Ha : Fire id' ≠ Fire id) by congruence.
    pose proof (oneshot_survives _ _ _ (Fire id') Hst Hid Hone Ha) as Hid'.
    change (step (Fire id') (running k)) with (fire id' (running k)) in Hid'.
    split_and!; [done| |done]. by rewrite arm_lookup, Hid', lookup_delete_ne, Ht.
Qed.

(** The run of a deferred stop: it happens when the stop is due, and it
    leaves the Voice silent and rewound and the timer gone. *)
Lemma clocked_stop_runs k k' id i d t c :
  clocked_ok k →
  timers (env_of (running k)) !! id
  = Some {| handler := StopSound i; delay := d; repeating := false |} →
  due k !! id = Some t →
  channel_at i (running k) = Some c →
  clocked_step host (Run id) k = Some k' →
  now k = t
  ∧ channel_at i (running k') = Some (Channel.with_sound (Sound.stop (Channel.sound c)) c)
  ∧ timers (env_of (running k')) !! id = None
  ∧ id < next_id (env_of (running k')).
Proof.
  intros (Hst & Hdue & Hdom) Hid Ht Hc Hstep. simpl in Hstep. rewrite Ht in Hstep.
  case_bool_decide as Hle; [|done]. injection Hstep as <-. cbn [running].
  pose proof (Hdue id t Ht).
  assert (Hlt : id < next_id (env_of (running k))) by (apply Hst; by rewrite Hid).
  split_and!; [lia| | |].
  - simpl. unfold fire. rewrite Hid. simpl. by rewrite (on_channel_channel _ _ _ c).
  - simpl. unfold fire. rewrite Hid. simpl. rewrite on_channel_env.
    destruct (channel_at _ _); simpl; apply lookup_delete_eq.
  - simpl. unfold fire. rewrite Hid. simpl. rewrite on_channel_env.
    by destruct (channel_at _ _).
Qed.

(** From the moment a deferred stop is pending: as long as it is pending the
    clock has not passed the time it is due; and once it is gone it has run,
    at the very time it was due, and the Voice came out silent. *)
Lemma stop_runs_when_due evs k k' id i d t :
  clocked_ok k →
  timers (env_of (running k)) !! id
  = Some {| handler := StopSound i; delay := d; repeating := false |} →
  due k !! id = Some t →
  is_Some (channel_at i (running k)) →
  clocked_run host evs k = Some k' →
  (timers (env_of (running k')) !! id
   = Some {| handler := StopSound i; delay := d; repeating := false |}
   ∧ due k' !! id = Some t ∧ (now k' ≤ t)%Z)
  ∨ (timers (env_of (running k')) !! id = None
     ∧ ∃ evs1 evs2 k1 k2 c,
         evs = evs1 ++ Run id :: evs2
         ∧ clocked_run host evs1 k = Some k1
         ∧ clocked_step host (Run id) k1 = Some k2
         ∧ now k1 = t
         ∧ channel_at i (running k2) = Some c
         ∧ silenced (Channel.sound c)).
Proof.
  revert k. induction evs as [|e evs IH]; intros k Hok Hid Ht Hc Hrun; simpl in Hrun.
  - injection Hrun as <-. left. split_and!; [done..|].
    destruct Hok as (_ & Hdue & _). by eapply Hdue.
  - destruct (clocked_step host e k) as [k1|] eqn:Hstep; [|done].
    pose proof (clocked_step_ok e k k1 Hok Hstep) as Hok1.
    assert (e = Run id ∨ e ≠ Run id) as [->|He].
    { destruct e as [| | |id']; try (by right). destruct (decide (id' = id)) as [->|]; [by left|right; congruence]. }
    + destruct Hc as [c Hc].
      destruct (clocked_stop_runs k k1 id i d t c Hok Hid Ht Hc Hstep)
        as (Hnow & Hc1 & Hgone & Hlt).
      right. split; [by eapply clocked_run_gone|].
      exists [], evs, k, k1, (Channel.with_sound (Sound.stop (Channel.sound c)) c).
      split_and!; done.
    + destruct (clocked_step_keeps_pending e k k1 id _ t Hok Hid eq_refl Ht He Hstep)
        as (Hid1 & Ht1 & _).
      assert (Hc1 : is_Some (channel_at i (running k1))).
      { apply channel_at_length. rewrite (clocked_step_length e k k1 Hstep).
        by apply channel_at_length. }
      destruct (IH k1 Hok1 Hid1 Ht1 Hc1 Hrun)
        as [Hpending|(Hgone & evs1 & evs2 & k2 & k3 & c & -> & Hrun1 & Hrest)].
      * by left.
      * right. split; [done|]. exists (e :: evs1), evs2, k2, k3, c.
        split; [done|]. split; [|done]. simpl. by rewrite Hstep.
Qed.

End Clock.

(** ** The claims *)

(** C1.  A Channel whose pattern has 16 cells, at any tempo [b > 0], started
    at cursor 0: after [N] ticks the cursor is [N mod 16]; and every one of
    these ticks moves the cursor one step on, back to 0 when it reaches 16. *)
Theorem cursor_after_ticks (this : ref) (c : Channel.t) (env : Env) (b : float) (N : nat) :
  length (Channel.sequence c) = 16 →
  Channel.beat c = 0 →
  (0 <? b)%float = true →
  let c0 := Channel.set_bpm b c in
  Channel.beat (ticks N this c0 env).1 = N mod 16
  ∧ ∀ k, k < N →
      let before := Channel.beat (ticks k this c0 env).1 in
      Channel.beat (ticks (S k) this c0 env).1
      = if bool_decide (before + 1 = 16) then 0 else before + 1.
Proof.
  intros Hlen Hbeat _ c0.
  assert (Hlen0 : length (Channel.sequence c0) = 16)
    by (unfold c0; by rewrite set_bpm_sequence).
  assert (Hbeat0 : Channel.beat c0 = 0) by (unfold c0; by rewrite set_bpm_beat).
  assert (Hat : ∀ n, Channel.beat (ticks n this c0 env).1 = n mod 16).
  { intros n. rewrite ticks_beat_mod by (rewrite Hlen0, Hbeat0; lia).
    by rewrite Hlen0, Hbeat0. }
  split; [apply Hat|].
  intros k _ before. rewrite ticks_last, playBeat_beat, ticks_sequence, Hlen0.
  fold before. unfold next_beat.
  assert (before < 16) by (unfold before; rewrite Hat; apply Nat.mod_upper_bound; lia).
  repeat case_bool_decide; lia.
Qed.

Lemma cursor_after_ticks_witness :
  Channel.beat (ticks 37 0 (Channel.set_bpm 90 hat_channel) initial_env).1 = 5.
Proof.
  refine (proj1 (cursor_after_ticks 0 hat_channel initial_env 90 37 _ _ _));
    reflexivity.
Defined.

(** C2.  In every state the page can reach, a tick of a Channel on a cell
    that holds 1 emits exactly one notification: an event whose type is
    "beat-", the voice's name, "-" and the cursor in decimal, a tag that no
    other pair of a voice name and a cursor has.  It fires the voice at the
    full level: [audio.play()] is called once, at volume 1, and the Voice is
    left playing at volume 1.  A tick on a cell that holds 0 emits no
    notification and still fires the voice, at level 0.  Either way the
    firing is for the Channel's step duration: a one-shot timer that was not
    pending before the tick is pending after it, whose callback is the
    Voice's own [stop] and whose delay is the step duration less 10 ms; the
    timers that were pending stay; and the tick changes neither the Voice's
    position, nor its playback rate, nor its name. *)
Theorem tick_notifies_audible_steps_only (st : State) (i : ref) (c : Channel.t) :
  reachable st →
  channel_at i st = Some c →
  let env := env_of st in
  let r := Channel.playBeat i c env in
  let name := Sound.name (Channel.sound c) in
  let ev := {| type := "beat-" +:+ name +:+ "-" +:+ pretty (Channel.beat c) |} in
  let voice := Sound.audio (Channel.sound r.1) in
  let stop_timer := {| handler := StopSound i;
                       delay := (Channel.duration c - 10)%float;
                       repeating := false |} in
  (∀ n j, "beat-" +:+ n +:+ "-" +:+ pretty j = type ev → n = name ∧ j = Channel.beat c)
  ∧ (Channel.sequence c !! Channel.beat c = Some 1%Z →
     trace r.2 = trace env ++ [DispatchEvent ev; AudioPlay i 1]
     ∧ notifications (trace r.2) = notifications (trace env) ++ [ev]
     ∧ Sound.volume voice = 1%float
     ∧ Sound.paused voice = false)
  ∧ (Channel.sequence c !! Channel.beat c = Some 0%Z →
     trace r.2 = trace env ++ [AudioPlay i 0]
     ∧ notifications (trace r.2) = notifications (trace env)
     ∧ Sound.volume voice = 0%float
     ∧ Sound.paused voice = false)
  ∧ (∃ id, timers env !! id = None ∧ timers r.2 !! id = Some stop_timer)
  ∧ (∀ id t, timers env !! id = Some t → timers r.2 !! id = Some t)
  ∧ Sound.currentTime voice = Sound.currentTime (Sound.audio (Channel.sound c))
  ∧ Sound.playbackRate voice = Sound.playbackRate (Sound.audio (Channel.sound c))
  ∧ Sound.name (Channel.sound r.1) = name.
Proof.
  intros Hreach Hc env r name ev voice stop_timer.
  assert (Hok : events_ok c).
  { pose proof (reachable_events_ok st Hreach) as Hok. by eapply Forall_lookup_1. }
  pose proof (reachable_env_ok st Hreach) as Henv.
  assert (Hfresh : timers env !! next_id env = None).
  { destruct (timers env !! next_id env) as [t|] eqn:Ht; [|done].
    assert (next_id env < next_id env) by (apply Henv; exists t; exact Ht). lia. }
  destruct (playBeat_by_cell i c env Hok) as [Hon Hoff].
  destruct (playBeat_audio i c env) as (Hpaused & Htime & Hlevel).
  split_and!.
  - intros n j H. exact (eventName_inj n name j (Channel.beat c) H).
  - intros Hcell. destruct (Hon Hcell) as (Htr & Hnote & _).
    split_and!; [exact Htr | exact Hnote | | exact Hpaused].
    unfold voice, r. rewrite Hlevel. unfold level_of. by rewrite Hcell.
  - intros Hcell. destruct (Hoff Hcell) as (Htr & Hnote & _).
    split_and!; [exact Htr | exact Hnote | | exact Hpaused].
    unfold voice, r. rewrite Hlevel. unfold level_of. by rewrite Hcell.
  - exists (next_id env). split; [exact Hfresh|].
    unfold r. rewrite playBeat_timers. apply lookup_insert_eq.
  - intros id t Hid. unfold r. rewrite playBeat_timers, lookup_insert_ne; [done|].
    intros <-. congruence.
  - exact Htime.
  - apply (playBeat_rate i c env).
  - apply playBeat_name.
Qed.

Lemma tick_notifies_audible_steps_only_witness :
  trace (Channel.playBeat 0 hat_channel initial_env).2
  = [DispatchEvent {| type := "beat-hat-0" |}; AudioPlay 0 1]
  ∧ Sound.volume (Sound.audio (Channel.sound (Channel.playBeat 0 hat_channel initial_env).1))
    = 1%float
  ∧ ∃ id, timers (Channel.playBeat 0 hat_channel initial_env).2 !! id
          = Some {| handler := StopSound 0; delay := 115; repeating := false |}.
Proof.
  pose proof (tick_notifies_audible_steps_only initial_state 0 hat_channel
                initial_state_reachable eq_refl) as (_ & Hon & _ & (id & _ & Hid) & _).
  destruct (Hon eq_refl) as (Htr & _ & Hvol & _).
  split_and!; [exact Htr | exact Hvol | exists id; exact Hid].
Defined.


(** C4, as the spec has it, does not hold: the constructors' default tempo is
    120, so the Voices of the page's sequencer already play at rate 2, and a
    tempo of 50 leaves them there. *)
Lemma slow_tempo_keeps_doubled_rate :
  (0 <? 50)%float = true
  ∧ (50 <=? 60)%float = true
  ∧ rate_of <$> Sequencer.channels (Sequencer.set_bpm 50 sequencer)
    = replicate 8 2%float
  ∧ ¬ Forall (λ c, rate_of c = 1%float)
             (Sequencer.channels (Sequencer.set_bpm 50 sequencer)).
Proof.
  split_and!; try reflexivity.
  intros H. apply (Forall_fmap rate_of (λ r, r = 1%float)) in H.
  apply Forall_inv in H. by apply float_2_is_not_1.
Qed.

(** C4, amended.  [Sequencer.setTempo(b)] with [b > 60] leaves every owned
    Channel's Voice at playback rate 2; with [0 < b ≤ 60] it leaves every
    Voice's playback rate as it was, so that the rate is 1 afterwards on
    the Voices where it was 1 before. *)
Theorem tempo_sets_rate_only_above_60 (s : Sequencer.t) (b : float) :
  ((60 <? b)%float = true →
   Forall (λ c, rate_of c = 2%float) (Sequencer.channels (Sequencer.set_bpm b s)))
  ∧ ((0 <? b)%float = true → (b <=? 60)%float = true →
     rate_of <$> Sequencer.channels (Sequencer.set_bpm b s)
     = rate_of <$> Sequencer.channels s
     ∧ (Forall (λ c, rate_of c = 1%float) (Sequencer.channels s) →
        Forall (λ c, rate_of c = 1%float) (Sequencer.channels (Sequencer.set_bpm b s)))).
Proof.
  split.
  - intros Hfast. simpl. apply Forall_fmap, Forall_forall.
    intros c _. by apply set_bpm_rate_fast.
  - intros _ Hslow%leb_not_gt.
    assert (Hsame : rate_of <$> Sequencer.channels (Sequencer.set_bpm b s)
                    = rate_of <$> Sequencer.channels s).
    { simpl. rewrite <- list_fmap_compose. apply list_fmap_ext.
      intros k c _. by apply set_bpm_rate_slow. }
    split; [done|]. intros Hone.
    apply (Forall_fmap rate_of (λ r, r = 1%float)). rewrite Hsame.
    by apply Forall_fmap.
Qed.

Lemma tempo_sets_rate_only_above_60_witness :
  Forall (λ c, rate_of c = 2%float)
         (Sequencer.channels (Sequencer.set_bpm 240 (Sequencer.new channels (Some 50%float))))
  ∧ Forall (λ c, rate_of c = 1%float)
           (Sequencer.channels
              (Sequencer.set_bpm 60 (Sequencer.new ((λ s, Channel.new s None (Some 50%float)) <$> sounds)
                                                   (Some 50%float)))).
Proof.
  split.
  - apply (proj1 (tempo_sets_rate_only_above_60 _ 240)). reflexivity.
  - apply (proj2 (tempo_sets_rate_only_above_60 _ 60)); [reflexivity | reflexivity |].
    repeat constructor.
Defined.

(** C5, as the spec has it, does not hold: at 120 BPM the step duration is
    [(60 / 120) * (1000 / 4)], which is 125 ms and not 250 ms. *)
Lemma afrika_hat_step_is_not_250ms :
  Channel.duration (Channel.set_bpm 120 hat_channel) = 125%float
  ∧ Channel.duration (Channel.set_bpm 120 hat_channel) ≠ 250%float.
Proof.
  split; [reflexivity|].
  intros H. pose proof (f_equal (λ x, (x =? 250)%float) H) as H'.
  vm_compute in H'. discriminate.
Qed.

(** C5, amended.  A Channel that holds the pattern
    [1,0,1,1,1,0,1,1,1,0,1,1,1,1,1,1] at 120 BPM has a step duration of
    125 ms; 16 ticks from cursor 0 emit the notifications of the steps
    0,2,3,4,6,7,8,10,11,12,13,14,15 and no other, fire the voice 16 times,
    silently at the steps 1, 5 and 9 and at full level at the others, and
    leave the cursor at 0. *)
Theorem afrika_hat_at_120 (this : ref) (c : Channel.t) (env : Env) :
  Channel.sequence c = afrika_hat →
  Channel.beat c = 0 →
  events_ok c →
  let c0 := Channel.set_bpm 120 c in
  let r := ticks 16 this c0 env in
  let new := drop (length (trace env)) (trace r.2) in
  Channel.duration c0 = 125%float
  ∧ trace r.2 = trace env ++ new
  ∧ notifications new
    = beat_event (Sound.name (Channel.sound c))
        <$> [0; 2; 3; 4; 6; 7; 8; 10; 11; 12; 13; 14; 15]
  ∧ levels new = [1; 0; 1; 1; 1; 0; 1; 1; 1; 0; 1; 1; 1; 1; 1; 1]%float
  ∧ silent_steps (levels new) = [1; 5; 9]
  ∧ Channel.beat r.1 = 0.
Proof.
  intros Hseq Hbeat Hok c0 r new.
  assert (Htr : trace r.2
                = trace env ++ ticks_effects 16 this (Sound.name (Channel.sound c))
                                             afrika_hat 0).
  { unfold r, c0. rewrite ticks_trace by (by apply set_bpm_events_ok).
    by rewrite set_bpm_name, set_bpm_sequence, set_bpm_beat, Hseq, Hbeat. }
  assert (Hnew : new = ticks_effects 16 this (Sound.name (Channel.sound c)) afrika_hat 0).
  { unfold new. rewrite Htr. by rewrite drop_app_length. }
  split_and!.
  - reflexivity.
  - by rewrite Hnew.
  - rewrite Hnew. reflexivity.
  - rewrite Hnew. reflexivity.
  - rewrite Hnew. reflexivity.
  - unfold r, c0. rewrite ticks_beat_mod; rewrite set_bpm_sequence, set_bpm_beat, Hseq, Hbeat.
    + reflexivity.
    + simpl. lia.
Qed.

Lemma afrika_hat_at_120_witness :
  let r := ticks 16 0 (Channel.set_bpm 120 hat_channel) initial_env in
  let new := drop (length (trace initial_env)) (trace r.2) in
  Channel.duration (Channel.set_bpm 120 hat_channel) = 125%float
  ∧ trace r.2 = trace initial_env ++ new
  ∧ notifications new
    = beat_event "hat" <$> [0; 2; 3; 4; 6; 7; 8; 10; 11; 12; 13; 14; 15]
  ∧ levels new = [1; 0; 1; 1; 1; 0; 1; 1; 1; 0; 1; 1; 1; 1; 1; 1]%float
  ∧ silent_steps (levels new) = [1; 5; 9]
  ∧ Channel.beat r.1 = 0.
Proof.
  apply (afrika_hat_at_120 0 hat_channel initial_env).
  - reflexivity.
  - reflexivity.
  - intros i e He. vm_compute in He. discriminate.
Defined.

(** C6.  [play(duration, volume)], called at a level between 0 and 1 and with
    a duration of 10 ms or more, in whatever state the Voice is, fires the
    Voice at that level and leaves a one-shot timer pending that was not
    pending before, whose callback is the Voice's own [stop] and whose delay
    is [duration - 10] ms.  On a host
    that waits no more than the delay a timer was given, the time the stop
    is due is no more than [duration - 10] ms after the call.  Whatever
    happens next on the page (actions, further calls, other timers, time
    passing), the stop is either still pending, and then the clock has not
    passed the time it is due (at which it can run), or it is gone, and then
    it has run, at the very time it was due, and left the Voice silent
    (volume 0, paused) and rewound to position 0: nothing cancels it and
    nothing postpones it. *)
Theorem forced_stop_meets_its_deadline
    (host : float → Z) (k k1 : Clocked) (i : ref) (c : Channel.t)
    (duration volume : option float) :
  (∀ x, (0 ≤ host x)%Z) →
  (∀ x, (0 <=? x)%float = true → ms_le (host x) x) →
  clocked_reachable host k →
  channel_at i (running k) = Some c →
  (0 <=? default 1 volume)%float = true →
  (default 1 volume <=? 1)%float = true →
  (0 <=? default 1000 duration - 10)%float = true →
  clocked_step host (Call i duration volume) k = Some k1 →
  let wait := host (default 1000 duration - 10)%float in
  let stop_timer := {| handler := StopSound i;
                       delay := (default 1000 duration - 10)%float;
                       repeating := false |} in
  ms_le wait (default 1000 duration - 10)%float
  ∧ now k1 = now k
  ∧ (∃ c1, channel_at i (running k1) = Some c1
           ∧ Sound.volume (Sound.audio (Channel.sound c1)) = default 1%float volume
           ∧ Sound.paused (Sound.audio (Channel.sound c1)) = false)
  ∧ ∃ id,
      timers (env_of (running k)) !! id = None
      ∧ timers (env_of (running k1)) !! id = Some stop_timer
      ∧ due k1 !! id = Some (now k + wait)%Z
      ∧ ∀ evs k2,
          clocked_run host evs k1 = Some k2 →
          (timers (env_of (running k2)) !! id = Some stop_timer
           ∧ (now k2 ≤ now k + wait)%Z
           ∧ (now k2 = (now k + wait)%Z → is_Some (clocked_step host (Run id) k2)))
          ∨ (timers (env_of (running k2)) !! id = None
             ∧ ∃ evs1 evs2 k3 k4 c',
                 evs = evs1 ++ Run id :: evs2
                 ∧ clocked_run host evs1 k1 = Some k3
                 ∧ clocked_step host (Run id) k3 = Some k4
                 ∧ now k3 = (now k + wait)%Z
                 ∧ channel_at i (running k4) = Some c'
                 ∧ silenced (Channel.sound c')).
Proof.
  intros Hnonneg Hontime Hreach Hc Hv0 Hv1 Hd Hstep wait stop_timer.
  pose proof (clocked_reachable_ok host Hnonneg k Hreach) as Hok.
  pose proof (clocked_step_ok host Hnonneg _ k k1 Hok Hstep) as Hok1.
  destruct Hok as ((Henv & _) & _ & Hdom).
  simpl in Hstep. unfold valid_volume in Hstep. rewrite Hv0, Hv1 in Hstep.
  injection Hstep as <-. cbn [running now due] in *.
  set (id := next_id (env_of (running k))).
  assert (Hfresh : timers (env_of (running k)) !! id = None).
  { destruct (timers (env_of (running k)) !! id) as [t|] eqn:Ht; [|done].
    assert (id < id) by (apply Henv; exists t; exact Ht). lia. }
  assert (Htimer : timers (env_of (on_channel i (fire_voice i duration volume) (running k)))
                   !! id = Some stop_timer).
  { rewrite on_channel_env, Hc, fire_voice_timers. apply lookup_insert_eq. }
  assert (Hdue : arm host (now k) (due k)
                   (env_of (on_channel i (fire_voice i duration volume) (running k))) !! id
                 = Some (now k + wait)%Z).
  { rewrite arm_lookup, Htimer. simpl.
    destruct (due k !! id) as [t|] eqn:Ht; [|done].
    destruct (Hdom id) as [t' Ht']; [by exists t | congruence]. }
  split_and!; [by apply Hontime | done | |].
  - eexists. split; [by apply on_channel_channel|]. done.
  - exists id. split_and!; [done..|].
    intros evs k2 Hrun.
    destruct (stop_runs_when_due host Hnonneg evs _ k2 id i _ _ Hok1 Htimer Hdue) as [H|H];
      [|done| |].
    + apply channel_at_length. cbn [running]. rewrite on_channel_length.
      apply channel_at_length. by exists c.
    + destruct H as (Hpending & Hdue2 & Hle). left. split_and!; [done..|].
      intros Hnow. simpl. rewrite Hdue2. rewrite bool_decide_eq_true_2 by lia. done.
    + right. exact H.
Qed.

Lemma forced_stop_meets_its_deadline_witness :
  let st := {| sequencer_of :=
                 Sequencer.new (construct <$> [(hat_sound, Some afrika_hat, None)]) None;
               env_of := initial_env |} in
  ∃ k1 id,
    clocked_step timeout_ms (Call 0 (Some 125%float) (Some 1%float)) (clocked_start st)
    = Some k1
    ∧ due k1 !! id = Some 115%Z
    ∧ ms_le 115 115.
Proof.
  intros st.
  pose proof (forced_stop_meets_its_deadline timeout_ms (clocked_start st) _ 0 _
                (Some 125%float) (Some 1%float)
                timeout_ms_nonneg timeout_ms_on_time
                (clocked_new timeout_ms [(hat_sound, Some afrika_hat, None)] None)
                eq_refl eq_refl eq_refl eq_refl eq_refl)
    as (Hle & _ & _ & id & _ & _ & Hdue & _).
  eexists _, id. split; [reflexivity|]. split; [exact Hdue | exact Hle].
Defined.

(** Two calls for which there is no such stop.  At 2000 beats per minute a
    step lasts 7.5 ms: the Voice of such a Channel, fired for its step at
    the full level, sounds when the call returns; its stop waits for
    [7.5 - 10] ms, a negative delay, and is due at the time of the call, not
    before; and no time at or after the call is within [7.5 - 10] ms of it.
    And a call at the level 1.5 schedules no stop at all: the setter of the
    volume throws, and the page is as it was. *)
Lemma forced_stop_misses_the_deadline :
  let st := {| sequencer_of :=
                 Sequencer.new (construct <$> [(hat_sound, Some afrika_hat, None)])
                               (Some 2000%float);
               env_of := initial_env |} in
  (∃ c k1 c1 id,
     channel_at 0 st = Some c
     ∧ Channel.duration c = 7.5%float
     ∧ clocked_step timeout_ms (Call 0 (Some (Channel.duration c)) (Some 1%float))
                    (clocked_start st) = Some k1
     ∧ channel_at 0 (running k1) = Some c1
     ∧ Sound.paused (Sound.audio (Channel.sound c1)) = false
     ∧ Sound.volume (Sound.audio (Channel.sound c1)) = 1%float
     ∧ timers (env_of (running k1)) !! id
       = Some {| handler := StopSound 0; delay := (7.5 - 10)%float; repeating := false |}
     ∧ due k1 !! id = Some (now (clocked_start st))
     ∧ (7.5 - 10 <? 0)%float = true
     ∧ ∀ n, (0 ≤ n)%Z → ¬ ms_le n (7.5 - 10)%float)
  ∧ clocked_step timeout_ms (Call 0 (Some 125%float) (Some 1.5%float)) (clocked_start st)
    = Some (clocked_start st).
Proof.
  intros st. split; [|reflexivity]. eexists _, _, _, 1.
  split; [reflexivity|]. split; [reflexivity|]. split; [reflexivity|].
  split; [reflexivity|]. split; [reflexivity|]. split; [reflexivity|].
  split; [reflexivity|]. split; [reflexivity|]. split; [reflexivity|].
  intros n Hn. unfold ms_le.
  destruct (Prim2SF (7.5 - 10)%float) as [s|s| |s m e] eqn:E; vm_compute in E; try discriminate.
  injection E as <- <- <-. simpl. lia.
Qed.

(** C7.  [Sequencer.stop] calls [stop] on every Channel it owns: each of
    them comes out with its cursor at 0 and otherwise as it was, wherever
    its cursor stood, and the timer its [interval] handle names is no longer
    pending. *)
Theorem stop_resets_every_channel (s : Sequencer.t) (env : Env) :
  let s' := (Sequencer.stop s env).1 in
  let env' := (Sequencer.stop s env).2 in
  Sequencer.channels s' = Channel.with_beat 0 <$> Sequencer.channels s
  ∧ Forall2 (λ c c', ∀ e, c' = (Channel.stop c e).1)
            (Sequencer.channels s) (Sequencer.channels s')
  ∧ Forall (λ c', Channel.beat c' = 0
                  ∧ ∀ id, Channel.interval c' = Some id → timers env' !! id = None)
           (Sequencer.channels s').
Proof.
  intros s' env'.
  assert (Hcs : Sequencer.channels s' = Channel.with_beat 0 <$> Sequencer.channels s).
  { unfold s', Sequencer.stop.
    pose proof (forEach_stop_channels 0 (Sequencer.channels s) env) as H.
    by destruct (Sequencer.forEach _ 0 _ env). }
  assert (Henv : env' = (Sequencer.forEach (λ _, Channel.stop) 0 (Sequencer.channels s) env).2).
  { unfold env', Sequencer.stop. by destruct (Sequencer.forEach _ 0 _ env). }
  split_and!; [done | |].
  - rewrite Hcs. apply Forall2_fmap_r, Forall_Forall2_diag, Forall_forall.
    intros c _ e. reflexivity.
  - rewrite Hcs. apply Forall_fmap, Forall_forall. intros c Hin. simpl.
    split; [done|]. intros id Hid. rewrite Henv. by eapply forEach_stop_cancels.
Qed.

(** C8.  [loop] hands [setInterval] the step duration the Channel has at that
    moment.  A tempo change made while such a timer is pending leaves the
    environment, and so the timer and its period, as they were, although it
    gives every Channel its new step duration; the next tick is the run of
    that same timer, and after it the timer is still pending with the period
    it was started with.  (What that tick hands to the Voice is the new
    step duration: its deferred stop is 10 ms short of it.) *)
Theorem tempo_change_keeps_running_timer (st : State) (i : ref) (id : nat) (d b : float) :
  reachable st →
  timers (env_of st) !! id = Some {| handler := PlayBeat i; delay := d; repeating := true |} →
  let running := {| handler := PlayBeat i; delay := d; repeating := true |} in
  let st1 := step (SetTempo b) st in
  let st2 := step (Fire id) st1 in
  (∀ this c env,
     Channel.interval (Channel.loop this c env).1 = Some (next_id env)
     ∧ timers (Channel.loop this c env).2 !! next_id env
       = Some {| handler := PlayBeat this; delay := Channel.duration c; repeating := true |})
  ∧ env_of st1 = env_of st
  ∧ timers (env_of st1) !! id = Some running
  ∧ Channel.interval <$> Sequencer.channels (sequencer_of st1)
    = Channel.interval <$> Sequencer.channels (sequencer_of st)
  ∧ Forall (λ c, Channel.duration c = (60 / b * (1000 / 4))%float)
           (Sequencer.channels (sequencer_of st1))
  ∧ st2 = on_channel i (Channel.playBeat i) st1
  ∧ timers (env_of st2) !! id = Some running
  ∧ (is_Some (channel_at i st) →
     timers (env_of st2) !! next_id (env_of st)
     = Some {| handler := StopSound i;
               delay := (60 / b * (1000 / 4) - 10)%float;
               repeating := false |}).
Proof.
  intros Hreach Hid running st1 st2.
  assert (Hfire : st2 = on_channel i (Channel.playBeat i) st1).
  { unfold st2. simpl. unfold fire. simpl. by rewrite Hid. }
  split_and!; try done.
  - intros this c env. split; [done|]. simpl. apply lookup_insert_eq.
  - simpl. rewrite <- list_fmap_compose. apply list_fmap_ext.
    intros k c _. simpl. apply set_bpm_interval.
  - apply (set_bpm_consistent b (sequencer_of st)).
  - rewrite Hfire, on_channel_env. destruct (channel_at i st1) as [c|]; [|done].
    rewrite playBeat_timers, lookup_insert_ne; [done|].
    pose proof (reachable_env_ok st Hreach id) as Hlt. simpl.
    rewrite Hid in Hlt. specialize (Hlt (mk_is_Some _ _ eq_refl)). lia.
  - intros [c Hc]. rewrite Hfire, on_channel_env.
    assert (Hc1 : channel_at i st1 = Some (Channel.set_bpm b c)).
    { unfold channel_at, st1. simpl. rewrite list_lookup_fmap.
      unfold channel_at in Hc. by rewrite Hc. }
    rewrite Hc1, playBeat_timers, set_bpm_duration. apply lookup_insert_eq.
Qed.

Lemma tempo_change_keeps_running_timer_witness :
  let st := step Play initial_state in
  let st1 := step (SetTempo 240) st in
  let st2 := step (Fire 1) st1 in
  env_of st1 = env_of st
  ∧ Forall (λ c, Channel.duration c = (60 / 240 * (1000 / 4))%float)
           (Sequencer.channels (sequencer_of st1))
  ∧ timers (env_of st2) !! 1
    = Some {| handler := PlayBeat 0; delay := 125; repeating := true |}.
Proof.
  intros st st1 st2.
  destruct (tempo_change_keeps_running_timer st 0 1 125 240)
    as (_ & Henv & _ & _ & Hdur & _ & Hpending & _).
  - apply reachable_step, initial_state_reachable.
  - reflexivity.
  - split_and!; [exact Henv | exact Hdur | exact Hpending].
Defined.

(** C9.  [clear] puts 16 zero cells in place of the pattern and leaves every
    other field of the Channel as it was, the cursor and the timer handle
    among them; it does not touch the environment, so the pending timers
    stay as they are; and the ticks that follow it, however many, fire the
    voice at level 0 only and emit no notification, whatever the pattern
    was before. *)
Theorem clear_silences_channel (c : Channel.t) :
  Channel.clear c
  = {| Channel.sound := Channel.sound c; Channel.sequence := replicate 16 0%Z;
       Channel.beat := Channel.beat c; Channel.duration := Channel.duration c;
       Channel.events := Channel.events c; Channel.interval := Channel.interval c |}
  ∧ (∀ i st, env_of (step (Clear i) st) = env_of st)
  ∧ ∀ N this env,
      trace (ticks N this (Channel.clear c) env).2
      = trace env ++ replicate N (AudioPlay this 0)
      ∧ notifications (trace (ticks N this (Channel.clear c) env).2)
        = notifications (trace env).
Proof.
  split_and!.
  - reflexivity.
  - intros i st. simpl. unfold on_channel. by destruct (_ !! i).
  - intros N this env.
    assert (Htr : trace (ticks N this (Channel.clear c) env).2
                  = trace env ++ replicate N (AudioPlay this 0)).
    { apply ticks_all_silent. intros k. apply empty_sequence_falsy. }
    split; [done|]. rewrite Htr. apply notifications_silent.
Qed.

(** C10.  The wrap test of a tick looks at the length the current pattern
    really has, and reading the cell is total: past the end of the pattern
    the step is a silent one.  So for a non-empty pattern of any length, and
    wherever the cursor stood, a tick leaves the cursor inside the pattern,
    and so does every later tick. *)
Theorem tick_keeps_cursor_in_pattern (this : ref) (c : Channel.t) (env : Env) :
  Channel.sequence c ≠ [] →
  let c' := (Channel.playBeat this c env).1 in
  Channel.sequence c' = Channel.sequence c
  ∧ Channel.beat c'
    = (if bool_decide (length (Channel.sequence c) ≤ Channel.beat c + 1)
       then 0 else Channel.beat c + 1)
  ∧ Channel.beat c' < length (Channel.sequence c')
  ∧ (length (Channel.sequence c) ≤ Channel.beat c →
     trace (Channel.playBeat this c env).2 = trace env ++ [AudioPlay this 0])
  ∧ ∀ n, Channel.beat (ticks (S n) this c env).1 < length (Channel.sequence c).
Proof.
  intros Hne c'.
  assert (Hlen : 0 < length (Channel.sequence c))
    by (destruct (Channel.sequence c); [done | simpl; lia]).
  unfold c'. rewrite playBeat_sequence, playBeat_beat.
  split_and!; try done.
  - by apply next_beat_lt.
  - intros Hout. apply playBeat_silent.
    by rewrite (lookup_ge_None_2 _ _ Hout).
  - intros n. rewrite ticks_last, playBeat_beat, ticks_sequence.
    by apply next_beat_lt.
Qed.

Lemma tick_keeps_cursor_in_pattern_witness :
  Channel.beat
    (Channel.playBeat 0 (Channel.with_beat 9 (Channel.with_sequence [1; 0; 1]%Z hat_channel))
                      initial_env).1 < 3.
Proof.
  refine (proj1 (proj2 (proj2
    (tick_keeps_cursor_in_pattern 0
       (Channel.with_beat 9 (Channel.with_sequence [1; 0; 1]%Z hat_channel))
       initial_env _)))).
  simpl. discriminate.
Defined.

(** * Beyond the claims *)

(** ** Starting and stopping *)

Lemma env_eq (e1 e2 : Env) :
  timers e1 = timers e2 → next_id e1 = next_id e2 → trace e1 = trace e2 → e1 = e2.
Proof. destruct e1, e2. simpl. by intros -> -> ->. Qed.

Lemma forEach_loop_spec i0 cs env :
  let r := Sequencer.forEach Channel.loop i0 cs env in
  (∀ k, r.1 !! k = Channel.with_interval (Some (next_id env + k)) <$> cs !! k)
  ∧ next_id r.2 = next_id env + length cs
  ∧ trace r.2 = trace env
  ∧ (∀ id, id < next_id env → timers r.2 !! id = timers env !! id)
  ∧ (∀ k c, cs !! k = Some c →
       timers r.2 !! (next_id env + k) = Some (ticker (i0 + k) (Channel.duration c))).
Proof.
  revert i0 env. induction cs as [|c cs IH]; intros i0 env r.
  - subst r. simpl. split_and!; try done; lia.
  - subst r. cbn [Sequencer.forEach Channel.loop setInterval add_timer].
    specialize (IH (S i0)
      {| timers := <[next_id env := ticker i0 (Channel.duration c)]> (timers env);
         next_id := S (next_id env); trace := trace env |}).
    fold (ticker i0 (Channel.duration c)).
    destruct (Sequencer.forEach Channel.loop (S i0) cs _) as [cs' env2].
    cbn [fst snd next_id trace timers] in *.
    destruct IH as (Hcs & Hnext & Htrace & Hold & Hnew).
    split_and!.
    + intros [|k]; simpl.
      * by rewrite Nat.add_0_r.
      * rewrite Hcs. by replace (S (next_id env) + k) with (next_id env + S k) by lia.
    + simpl. lia.
    + done.
    + intros id Hid. rewrite Hold by lia. by rewrite lookup_insert_ne by lia.
    + intros [|k] c0; simpl.
      * intros [= <-]. rewrite !Nat.add_0_r, Hold by lia. apply lookup_insert_eq.
      * intros Hk. replace (next_id env + S k) with (S (next_id env) + k) by lia.
        replace (i0 + S k) with (S i0 + k) by lia. by apply Hnew.
Qed.

Lemma forEach_stop_spec i0 cs env :
  let r := Sequencer.forEach (λ _, Channel.stop) i0 cs env in
  r.1 = Channel.with_beat 0 <$> cs
  ∧ next_id r.2 = next_id env
  ∧ trace r.2 = trace env
  ∧ ∀ id, timers r.2 !! id
          = if bool_decide (Some id ∈ Channel.interval <$> cs) then None
            else timers env !! id.
Proof.
  revert i0 env. induction cs as [|c cs IH]; intros i0 env r.
  - subst r. simpl. split_and!; done.
  - subst r. cbn [Sequencer.forEach Channel.stop].
    specialize (IH (S i0) (clearInterval (Channel.interval c) env)).
    destruct (Sequencer.forEach _ (S i0) cs _) as [cs' env2].
    cbn [fst snd] in *. destruct IH as (Hcs & Hnext & Htrace & Htimers).
    split_and!.
    + by rewrite Hcs.
    + rewrite Hnext. by destruct (Channel.interval c).
    + rewrite Htrace. by destruct (Channel.interval c).
    + intros id. rewrite Htimers, fmap_cons.
      destruct (Channel.interval c) as [j|] eqn:Hj; simpl.
      * destruct (decide (id = j)) as [->|Hne].
        -- rewrite (bool_decide_eq_true_2 (Some j ∈ Some j :: _)) by (apply elem_of_cons; by left).
           case_bool_decide; [done|]. apply lookup_delete_eq.
        -- rewrite (bool_decide_ext (Some id ∈ Some j :: _) (Some id ∈ Channel.interval <$> cs))
             by (rewrite elem_of_cons; split; [intros [?|?]; [congruence|done] | by right]).
           case_bool_decide; [done|]. by rewrite lookup_delete_ne.
      * by rewrite (bool_decide_ext (Some id ∈ None :: _) (Some id ∈ Channel.interval <$> cs))
          by (rewrite elem_of_cons; split; [intros [?|?]; [congruence|done] | by right]).
Qed.

Lemma play_spec (s : Sequencer.t) (env : Env) :
  let r := Sequencer.play s env in
  (∀ k, Sequencer.channels r.1 !! k
        = Channel.with_interval (Some (next_id env + k)) <$> Sequencer.channels s !! k)
  ∧ (∀ k c, Sequencer.channels s !! k = Some c →
       timers r.2 !! (next_id env + k) = Some (ticker k (Channel.duration c)))
  ∧ (∀ id, id < next_id env → timers r.2 !! id = timers env !! id)
  ∧ next_id r.2 = next_id env + length (Sequencer.channels s)
  ∧ trace r.2 = trace env
  ∧ Sequencer.get_bpm r.1 = Sequencer.get_bpm s.
Proof.
  intros r. subst r. unfold Sequencer.play.
  pose proof (forEach_loop_spec 0 (Sequencer.channels s) env) as H.
  destruct (Sequencer.forEach Channel.loop 0 (Sequencer.channels s) env) as [cs env1].
  cbn [fst snd] in *. destruct H as (Hcs & Hnext & Htrace & Hold & Hnew).
  split_and!; try done.
Qed.

Lemma play_env_ok_all s env : env_ok env → env_ok (Sequencer.play s env).2.
Proof.
  intros Hok. unfold Sequencer.play.
  pose proof (forEach_env_invariant env_ok Channel.loop 0 (Sequencer.channels s) env) as H.
  destruct (Sequencer.forEach Channel.loop 0 _ env) as [cs e1]. apply H; [|done].
  intros j c0 e0. apply loop_env_ok.
Qed.

(** What [Sequencer.stop] leaves of the timers: those that no Channel's
    handle names. *)
Lemma stop_timers s env id :
  timers (Sequencer.stop s env).2 !! id
  = if bool_decide (Some id ∈ handles s) then None else timers env !! id.
Proof.
  unfold Sequencer.stop, handles.
  pose proof (forEach_stop_spec 0 (Sequencer.channels s) env) as H.
  destruct (Sequencer.forEach _ 0 (Sequencer.channels s) env) as [cs env1].
  cbn [fst snd] in *. by destruct H as (_ & _ & _ & ->).
Qed.

Lemma stop_channels s env :
  Sequencer.channels (Sequencer.stop s env).1 = Channel.with_beat 0 <$> Sequencer.channels s.
Proof.
  unfold Sequencer.stop.
  pose proof (forEach_stop_spec 0 (Sequencer.channels s) env) as H.
  destruct (Sequencer.forEach _ 0 (Sequencer.channels s) env) as [cs env1].
  cbn [fst snd] in *. by destruct H as (-> & _).
Qed.

Lemma stop_next_id_trace s env :
  next_id (Sequencer.stop s env).2 = next_id env
  ∧ trace (Sequencer.stop s env).2 = trace env
  ∧ Sequencer.__bpm (Sequencer.stop s env).1 = Sequencer.__bpm s.
Proof.
  unfold Sequencer.stop.
  pose proof (forEach_stop_spec 0 (Sequencer.channels s) env) as H.
  destruct (Sequencer.forEach _ 0 (Sequencer.channels s) env) as [cs env1].
  cbn [fst snd] in *. by destruct H as (_ & -> & -> & _).
Qed.

Lemma play_handles s env :
  handles (Sequencer.play s env).1
  = (λ k, Some (next_id env + k)) <$> seq 0 (length (Sequencer.channels s)).
Proof.
  destruct (play_spec s env) as (Hcs & _).
  apply list_eq. intros k. unfold handles. rewrite !list_lookup_fmap, Hcs.
  destruct (Sequencer.channels s !! k) as [c|] eqn:Hk; simpl.
  - rewrite lookup_seq_lt by (by eapply lookup_lt_Some). done.
  - rewrite lookup_seq_ge by (by apply lookup_ge_None). done.
Qed.

Lemma elem_of_play_handles s env id :
  Some id ∈ handles (Sequencer.play s env).1
  ↔ next_id env ≤ id < next_id env + length (Sequencer.channels s).
Proof.
  rewrite play_handles, list_elem_of_fmap. split.
  - intros (k & [= ->] & Hk%elem_of_seq). lia.
  - intros Hid. exists (id - next_id env). split; [f_equal; lia|].
    apply elem_of_seq. lia.
Qed.

Lemma env_ok_none env id : env_ok env → next_id env ≤ id → timers env !! id = None.
Proof.
  intros Hok Hid. destruct (timers env !! id) as [t|] eqn:Ht; [|done].
  pose proof (Hok id (mk_is_Some _ _ Ht)). lia.
Qed.

(** X1.  [Sequencer.play] starts exactly one repeating timer for each
    Channel: the Channel at index [k] gets the k-th id that is handed out as
    its [interval] handle, and the timer under that id runs that Channel's
    [playBeat] with the step duration the Channel has at the call as its
    period.  The timers that were pending, the trace and the tempo are left
    as they were, and no other timer is added. *)
Theorem play_starts_one_timer_per_channel (s : Sequencer.t) (env : Env) :
  let r := Sequencer.play s env in
  let n := length (Sequencer.channels s) in
  (∀ k, Sequencer.channels r.1 !! k
        = Channel.with_interval (Some (next_id env + k)) <$> Sequencer.channels s !! k)
  ∧ (∀ k c, Sequencer.channels s !! k = Some c →
       timers r.2 !! (next_id env + k) = Some (ticker k (Channel.duration c)))
  ∧ (∀ id, id < next_id env → timers r.2 !! id = timers env !! id)
  ∧ (env_ok env → ∀ id, next_id env + n ≤ id → timers r.2 !! id = None)
  ∧ next_id r.2 = next_id env + n
  ∧ trace r.2 = trace env
  ∧ Sequencer.get_bpm r.1 = Sequencer.get_bpm s.
Proof.
  intros r n. subst r n.
  destruct (play_spec s env) as (Hcs & Hnew & Hold & Hnext & Htrace & Hbpm).
  split_and!; try done.
  intros Hok id Hid. apply env_ok_none; [by apply play_env_ok_all|]. lia.
Qed.

(** X2.  Started once and stopped, the sequencer leaves no timer behind:
    after [play] and then [stop] the pending timers and the trace are the
    ones from before the [play], and every Channel is as it was but for its
    cursor, which is 0, and its handle. *)
Theorem play_then_stop_leaves_no_timer (s : Sequencer.t) (env : Env) :
  env_ok env →
  let p := Sequencer.play s env in
  let q := Sequencer.stop p.1 p.2 in
  timers q.2 = timers env
  ∧ trace q.2 = trace env
  ∧ ∀ k, Sequencer.channels q.1 !! k
         = (λ c, Channel.with_beat 0 (Channel.with_interval (Some (next_id env + k)) c))
             <$> Sequencer.channels s !! k.
Proof.
  intros Hok p q. subst p q.
  destruct (play_spec s env) as (Hcs & Hnew & Hold & Hnext & Htrace & _).
  split_and!.
  - apply map_eq. intros id. rewrite stop_timers. case_bool_decide as Hid.
    + apply elem_of_play_handles in Hid. symmetry. apply env_ok_none; [done|lia].
    + rewrite elem_of_play_handles in Hid.
      destruct (decide (id < next_id env)) as [Hlt|Hge]; [by apply Hold|].
      rewrite (env_ok_none env id) by (done || lia).
      apply env_ok_none; [by apply play_env_ok_all|]. lia.
  - destruct (stop_next_id_trace (Sequencer.play s env).1 (Sequencer.play s env).2)
      as (_ & -> & _). apply Htrace.
  - intros k. rewrite stop_channels, list_lookup_fmap, Hcs.
    by destruct (Sequencer.channels s !! k).
Qed.

Lemma play_then_stop_leaves_no_timer_witness :
  timers (env_of (step Stop (step Play initial_state))) = timers initial_env.
Proof.
  exact (proj1 (play_then_stop_leaves_no_timer sequencer initial_env initial_env_ok)).
Defined.

(** X3.  Started twice and stopped once, the sequencer keeps ticking: the
    second [play] overwrites every Channel's handle, so [stop] cancels the
    timers of the second [play] only, and the timer that the first [play]
    started for a Channel is still pending, with that Channel's [playBeat]
    as its callback. *)
Theorem double_play_outlives_stop (s : Sequencer.t) (env : Env) (k : nat) (c : Channel.t) :
  Sequencer.channels s !! k = Some c →
  let n := length (Sequencer.channels s) in
  let p1 := Sequencer.play s env in
  let p2 := Sequencer.play p1.1 p1.2 in
  let q := Sequencer.stop p2.1 p2.2 in
  timers q.2 !! (next_id env + k) = Some (ticker k (Channel.duration c))
  ∧ timers q.2 !! (next_id env + n + k) = None
  ∧ Channel.interval <$> Sequencer.channels q.1 !! k = Some (Some (next_id env + n + k))
  ∧ Channel.beat <$> Sequencer.channels q.1 !! k = Some 0.
Proof.
  intros Hk n p1 p2 q. subst q p2.
  destruct (play_spec s env) as (Hcs1 & Hnew1 & Hold1 & Hnext1 & _).
  destruct (play_spec p1.1 p1.2) as (Hcs2 & Hnew2 & Hold2 & Hnext2 & _).
  assert (Hlen1 : length (Sequencer.channels p1.1) = n).
  { unfold p1, Sequencer.play.
    pose proof (forEach_length Channel.loop 0 (Sequencer.channels s) env) as H.
    by destruct (Sequencer.forEach Channel.loop 0 _ env). }
  assert (Hlt : k < n) by (by eapply lookup_lt_Some).
  fold p1 in Hcs1, Hnew1, Hold1, Hnext1. fold n in Hnext1.
  split_and!.
  - rewrite stop_timers. case_bool_decide as Hid.
    + apply elem_of_play_handles in Hid. lia.
    + rewrite Hold2 by lia. by apply Hnew1.
  - rewrite stop_timers. case_bool_decide as Hid; [done|].
    exfalso. apply Hid. apply elem_of_play_handles. lia.
  - rewrite stop_channels, list_lookup_fmap, Hcs2, Hcs1, Hk. simpl.
    by rewrite Hnext1.
  - by rewrite stop_channels, list_lookup_fmap, Hcs2, Hcs1, Hk.
Qed.

Lemma double_play_outlives_stop_witness :
  let p1 := Sequencer.play sequencer initial_env in
  let p2 := Sequencer.play p1.1 p1.2 in
  let q := Sequencer.stop p2.1 p2.2 in
  timers q.2 !! (next_id initial_env + 0) = Some (ticker 0 (Channel.duration hat_channel)).
Proof.
  refine (proj1 (double_play_outlives_stop sequencer initial_env 0 hat_channel _)).
  reflexivity.
Defined.

Lemma sequencer_eq (s1 s2 : Sequencer.t) :
  Sequencer.channels s1 = Sequencer.channels s2 →
  Sequencer.__bpm s1 = Sequencer.__bpm s2 → s1 = s2.
Proof. destruct s1, s2. simpl. by intros -> ->. Qed.

Lemma pair_eq {A B} (p q : A * B) : p.1 = q.1 → p.2 = q.2 → p = q.
Proof. destruct p, q. simpl. by intros -> ->. Qed.

(** X4.  [Sequencer.stop] is idempotent: a second [stop] changes neither a
    Channel nor the timers. *)
Theorem stop_twice_is_stop (s : Sequencer.t) (env : Env) :
  let q := Sequencer.stop s env in
  Sequencer.stop q.1 q.2 = q.
Proof.
  intros q.
  assert (Hh : handles q.1 = handles s).
  { unfold q, handles. rewrite stop_channels, <- list_fmap_compose.
    by apply list_fmap_ext. }
  destruct (stop_next_id_trace q.1 q.2) as (Hn & Ht & Hb).
  apply pair_eq.
  - apply sequencer_eq; [|done].
    rewrite stop_channels. unfold q. rewrite stop_channels, <- list_fmap_compose.
    by apply list_fmap_ext.
  - apply env_eq; [|done|done]. apply map_eq. intros id.
    rewrite stop_timers, Hh. case_bool_decide as Hid; [|done].
    unfold q. rewrite stop_timers. by rewrite bool_decide_eq_true_2.
Qed.

(** ** Tempo and rate *)

Lemma set_bpm_keeps_rate_2 b c : rate_of c = 2%float → rate_of (Channel.set_bpm b c) = 2%float.
Proof.
  intros Hc. destruct (60 <? b)%float eqn:Hb.
  - by apply set_bpm_rate_fast.
  - by rewrite set_bpm_rate_slow.
Qed.

Lemma step_keeps_rate_2 a st :
  Forall (λ c, rate_of c = 2%float) (Sequencer.channels (sequencer_of st)) →
  Forall (λ c, rate_of c = 2%float) (Sequencer.channels (sequencer_of (step a st))).
Proof.
  intros Hok. destruct a as [| |b|i|i l|i k v|id]; simpl.
  - unfold Sequencer.play.
    pose proof (forEach_Forall (λ c, rate_of c = 2%float) Channel.loop 0
                  (Sequencer.channels (sequencer_of st)) (env_of st)) as H.
    destruct (Sequencer.forEach _ 0 _ _) as [cs' env']. simpl in *. apply H; [|done].
    by intros j c0 e0.
  - unfold Sequencer.stop.
    pose proof (forEach_Forall (λ c, rate_of c = 2%float) (λ _, Channel.stop) 0
                  (Sequencer.channels (sequencer_of st)) (env_of st)) as H.
    destruct (Sequencer.forEach _ 0 _ _) as [cs' env']. simpl in *. apply H; [|done].
    by intros j c0 e0.
  - apply Forall_fmap. eapply Forall_impl; [exact Hok|].
    intros c. apply set_bpm_keeps_rate_2.
  - apply on_channel_Forall; [|done]. by intros c e.
  - apply Forall_alter; [done|]. by intros c _.
  - apply Forall_alter; [done|]. by intros c _.
  - unfold fire. destruct (timers (env_of st) !! id) as [tm|]; [|done].
    destruct (handler tm) as [i|i]; simpl; apply on_channel_Forall.
    + by intros c e.
    + by destruct (repeating tm).
    + intros c e Hc. by rewrite playBeat_rate.
    + by destruct (repeating tm).
Qed.

Lemma run_cons a l st : run (a :: l) st = run l (step a st).
Proof. reflexivity. Qed.

(** X5.  The playback rate is only ever raised.  A tempo change never takes
    a Voice back from rate 2, and no other action touches the rate; so once
    a sequencer has been constructed at a tempo above 60 (the default 120
    is), every Voice stays at rate 2 through anything that happens later,
    slower tempos included. *)
Theorem rate_2_is_forever
    (cs : list Channel.t) (bpm : option float) (env : Env) (l : list action) :
  (60 <? default 120 bpm)%float = true →
  Forall (λ c, rate_of c = 2%float)
         (Sequencer.channels
            (sequencer_of (run l {| sequencer_of := Sequencer.new cs bpm; env_of := env |}))).
Proof.
  intros Hfast.
  assert (Hrun : ∀ st, Forall (λ c, rate_of c = 2%float) (Sequencer.channels (sequencer_of st)) →
                       Forall (λ c, rate_of c = 2%float)
                              (Sequencer.channels (sequencer_of (run l st)))).
  { induction l as [|a l IH]; intros st Hst; [done|].
    rewrite run_cons. by apply IH, step_keeps_rate_2. }
  apply Hrun. simpl. apply Forall_fmap, Forall_forall.
  intros c _. by apply set_bpm_rate_fast.
Qed.

Lemma rate_2_is_forever_witness :
  Forall (λ c, rate_of c = 2%float)
         (Sequencer.channels
            (sequencer_of (run [SetTempo 40; Play; Fire 1; SetTempo 30]
                               {| sequencer_of := Sequencer.new channels None;
                                  env_of := initial_env |}))).
Proof. apply (rate_2_is_forever channels None initial_env). reflexivity. Defined.

(** X6.  The tempo is not checked.  A tempo of 0 gives every Channel the
    step duration [60 / 0 * 250], which is +Infinity, and a tempo that is
    not a number gives NaN; in both cases [getTempo] returns the value that
    was set and the playback rates are left alone. *)
Theorem tempo_zero_is_accepted (s : Sequencer.t) :
  (Forall (λ c, Channel.duration c = infinity)
          (Sequencer.channels (Sequencer.set_bpm 0 s))
   ∧ Sequencer.get_bpm (Sequencer.set_bpm 0 s) = 0%float
   ∧ rate_of <$> Sequencer.channels (Sequencer.set_bpm 0 s)
     = rate_of <$> Sequencer.channels s)
  ∧ (Forall (λ c, Channel.duration c = nan)
            (Sequencer.channels (Sequencer.set_bpm nan s))
     ∧ Sequencer.get_bpm (Sequencer.set_bpm nan s) = nan
     ∧ rate_of <$> Sequencer.channels (Sequencer.set_bpm nan s)
       = rate_of <$> Sequencer.channels s).
Proof.
  split; (split_and!; [| done |]).
  - apply (set_bpm_consistent 0 s).
  - simpl. rewrite <- list_fmap_compose. apply list_fmap_ext.
    intros k c _. by apply set_bpm_rate_slow.
  - apply (set_bpm_consistent nan s).
  - simpl. rewrite <- list_fmap_compose. apply list_fmap_ext.
    intros k c _. by apply set_bpm_rate_slow.
Qed.

(** ** Patterns of any length *)

(** X7.  On an empty pattern every tick is a silent one and puts the cursor
    at 0: the wrap test [beat >= sequence.length] holds after every
    increment. *)
Theorem empty_pattern_ticks (this : ref) (c : Channel.t) (env : Env) (n : nat) :
  Channel.sequence c = [] →
  Channel.beat (ticks (S n) this c env).1 = 0
  ∧ trace (ticks n this c env).2 = trace env ++ replicate n (AudioPlay this 0)
  ∧ notifications (trace (ticks n this c env).2) = notifications (trace env).
Proof.
  intros Hseq.
  assert (Htr : trace (ticks n this c env).2 = trace env ++ replicate n (AudioPlay this 0)).
  { apply ticks_all_silent. intros k. by rewrite Hseq. }
  split_and!; [|done|].
  - rewrite ticks_last, playBeat_beat, ticks_sequence, Hseq. reflexivity.
  - rewrite Htr. apply notifications_silent.
Qed.

Lemma empty_pattern_ticks_witness :
  Channel.beat (ticks 3 0 (Channel.new hat_sound (Some []) None) initial_env).1 = 0.
Proof.
  exact (proj1 (empty_pattern_ticks 0 (Channel.new hat_sound (Some []) None)
                  initial_env 2 eq_refl)).
Defined.

(** X8.  The cursor of a Channel with a pattern of any length [len > 0]:
    from a cursor inside the pattern, [n] ticks lead to
    [(beat + n) mod len]; from a cursor beyond the pattern (the pattern was
    replaced by a shorter one) the first tick leads to 0, so [n + 1] ticks
    lead to [n mod len]; and from inside the pattern [len] ticks lead back
    to where the cursor was. *)
Theorem cursor_in_any_pattern (this : ref) (c : Channel.t) (env : Env) (n : nat) :
  Channel.sequence c ≠ [] →
  let len := length (Channel.sequence c) in
  (Channel.beat c < len →
   Channel.beat (ticks n this c env).1 = (Channel.beat c + n) mod len
   ∧ Channel.beat (ticks len this c env).1 = Channel.beat c)
  ∧ (len ≤ Channel.beat c →
     Channel.beat (ticks (S n) this c env).1 = n mod len).
Proof.
  intros Hne len.
  assert (Hlen : 0 < len) by (unfold len; destruct (Channel.sequence c); [done | simpl; lia]).
  split.
  - intros Hin. split; [by apply ticks_beat_mod|].
    rewrite ticks_beat_mod by done. fold len.
    rewrite <- Nat.Div0.add_mod_idemp_r, Nat.Div0.mod_same, Nat.add_0_r.
    by apply Nat.mod_small.
  - intros Hout. rewrite ticks_S, ticks_beat_mod; rewrite playBeat_sequence, playBeat_beat.
    + fold len. unfold next_beat. by rewrite bool_decide_eq_true_2 by lia.
    + by apply next_beat_lt.
Qed.

Lemma cursor_in_any_pattern_witness :
  Channel.beat (ticks 5 0 (Channel.with_sequence [1; 0; 1]%Z hat_channel) initial_env).1 = 2.
Proof.
  refine (proj1 (proj1 (cursor_in_any_pattern 0 (Channel.with_sequence [1; 0; 1]%Z hat_channel)
                          initial_env 5 _) _)).
  - discriminate.
  - simpl. lia.
Defined.

Lemma ticks_effects_pass n this name pattern b :
  b + n ≤ length pattern →
  ticks_effects n this name pattern b
  = flat_map (tick_effects this name pattern) (seq b n).
Proof.
  revert b. induction n as [|n IH]; intros b Hb; [done|].
  cbn [ticks_effects seq flat_map]. f_equal.
  destruct n as [|n]; [done|].
  unfold next_beat. rewrite bool_decide_eq_false_2 by lia.
  rewrite Nat.add_1_r. apply IH. lia.
Qed.

Lemma notifications_flat_map this name pattern l :
  notifications (flat_map (tick_effects this name pattern) l)
  = beat_event name <$> filter (λ k, Channel.truthy (pattern !! k) = true) l.
Proof.
  induction l as [|k l IH]; [done|].
  cbn [flat_map]. unfold notifications in *. rewrite omap_app, IH, filter_cons.
  unfold tick_effects. destruct (Channel.truthy (pattern !! k)) eqn:Hk.
  - by rewrite decide_True.
  - by rewrite decide_False by done.
Qed.

Lemma levels_flat_map this name pattern l :
  levels (flat_map (tick_effects this name pattern) l) = level_of pattern <$> l.
Proof.
  induction l as [|k l IH]; [done|].
  cbn [flat_map]. unfold levels in *. rewrite omap_app, IH, fmap_cons.
  unfold tick_effects, level_of. by destruct (Channel.truthy (pattern !! k)).
Qed.

(** X9.  One pass over a pattern.  From cursor 0, as many ticks as the
    pattern has cells emit one notification for each audible cell and no
    other, in the order of the steps, and fire the voice once per cell, at
    level 1 for an audible cell and at level 0 for a silent one. *)
Theorem one_pass_over_the_pattern (this : ref) (c : Channel.t) (env : Env) :
  events_ok c →
  Channel.beat c = 0 →
  let pattern := Channel.sequence c in
  let r := ticks (length pattern) this c env in
  let new := drop (length (trace env)) (trace r.2) in
  trace r.2 = trace env ++ new
  ∧ notifications new
    = beat_event (Sound.name (Channel.sound c)) <$> audible_steps pattern
  ∧ levels new = level_of pattern <$> seq 0 (length pattern).
Proof.
  intros Hok Hbeat pattern r new.
  assert (Htr : trace r.2
                = trace env ++ flat_map (tick_effects this (Sound.name (Channel.sound c)) pattern)
                                        (seq 0 (length pattern))).
  { unfold r. rewrite ticks_trace by done. rewrite Hbeat. fold pattern.
    by rewrite ticks_effects_pass by lia. }
  assert (Hnew : new = flat_map (tick_effects this (Sound.name (Channel.sound c)) pattern)
                                (seq 0 (length pattern))).
  { unfold new. by rewrite Htr, drop_app_length. }
  rewrite Hnew. split_and!; [done | apply notifications_flat_map | apply levels_flat_map].
Qed.

Lemma one_pass_over_the_pattern_witness :
  let c := Channel.with_sequence [0; 1; 1]%Z hat_channel in
  notifications (drop (length (trace initial_env))
                      (trace (ticks (length (Channel.sequence c)) 0 c initial_env).2))
  = beat_event "hat" <$> [1; 2].
Proof.
  intros c.
  refine (proj1 (proj2 (one_pass_over_the_pattern 0 c initial_env _ _))).
  - intros i e He. vm_compute in He. discriminate.
  - reflexivity.
Defined.

(** X10.  An event names its row and its step.  The names of the events of
    two steps are equal only when the voices have the same name and the
    steps the same index, also for voice names that contain hyphens (as
    "hat-open" does beside "hat"); so a tick dispatches no event that a
    listener of another row or of another step waits for. *)
Theorem events_name_their_step :
  (∀ n1 n2 i j, Channel.eventName n1 i = Channel.eventName n2 j → n1 = n2 ∧ i = j)
  ∧ (∀ this c env n j,
       events_ok c →
       (n, j) ≠ (Sound.name (Channel.sound c), Channel.beat c) →
       beat_event n j
       ∉ notifications (drop (length (trace env)) (trace (Channel.playBeat this c env).2))).
Proof.
  split; [apply eventName_inj|].
  intros this c env n j Hok Hne. rewrite playBeat_trace, drop_app_length by done.
  unfold tick_effects. destruct (Channel.truthy _); simpl.
  - intros [H|H]%elem_of_cons; [|by apply elem_of_nil in H].
    apply Hne. apply (f_equal type) in H. simpl in H.
    by apply eventName_inj in H as [-> ->].
  - apply not_elem_of_nil.
Qed.

(** ** Firing and the deferred stop *)

Lemma ticks_next_id n this c env : next_id (ticks n this c env).2 = next_id env + n.
Proof.
  revert c env. induction n as [|n IH]; intros c env; [simpl; lia|].
  rewrite ticks_S, IH, playBeat_next_id. lia.
Qed.

Lemma ticks_old_timers n this c env id :
  id < next_id env → timers (ticks n this c env).2 !! id = timers env !! id.
Proof.
  revert c env. induction n as [|n IH]; intros c env Hid; [done|].
  rewrite ticks_S, IH by (rewrite playBeat_next_id; lia).
  rewrite playBeat_timers. by rewrite lookup_insert_ne by lia.
Qed.

Lemma ticks_new_timers n this c env k :
  k < n →
  timers (ticks n this c env).2 !! (next_id env + k) = Some (stopper this (Channel.duration c)).
Proof.
  revert c env k. induction n as [|n IH]; intros c env k Hk; [lia|].
  rewrite ticks_S. destruct k as [|k].
  - rewrite Nat.add_0_r, ticks_old_timers by (rewrite playBeat_next_id; lia).
    rewrite playBeat_timers. apply lookup_insert_eq.
  - replace (next_id env + S k) with (next_id (Channel.playBeat this c env).2 + k)
      by (rewrite playBeat_next_id; lia).
    rewrite IH by lia. by rewrite playBeat_duration.
Qed.

(** X11.  Ticks queue their stops and never rewind.  While no timer runs,
    [n] ticks of a Channel leave [n] more deferred stops pending, one per
    tick, each under an id of its own that was free before and each 10 ms
    short of the step duration; the timers that were pending stay; the Voice
    is left playing (not paused), and its position is never reset by a tick:
    only [stop] rewinds. *)
Theorem ticks_queue_deferred_stops (n : nat) (this : ref) (c : Channel.t) (env : Env) :
  env_ok env →
  let r := ticks n this c env in
  (∃ ids, NoDup ids ∧ length ids = n
          ∧ ∀ id, id ∈ ids →
              timers env !! id = None
              ∧ timers r.2 !! id = Some (stopper this (Channel.duration c)))
  ∧ (∀ id t, timers env !! id = Some t → timers r.2 !! id = Some t)
  ∧ Sound.currentTime (Sound.audio (Channel.sound r.1))
    = Sound.currentTime (Sound.audio (Channel.sound c))
  ∧ (0 < n → Sound.paused (Sound.audio (Channel.sound r.1)) = false).
Proof.
  intros Hok r. subst r. split_and!.
  - exists ((λ k, next_id env + k) <$> seq 0 n). split_and!.
    + apply NoDup_fmap_2; [intros k1 k2; lia | apply NoDup_seq].
    + by rewrite length_fmap, length_seq.
    + intros id (k & -> & Hk%elem_of_seq)%list_elem_of_fmap. split.
      * destruct (timers env !! (next_id env + k)) as [t|] eqn:Ht; [|done].
        assert (next_id env + k < next_id env) by (apply Hok; by rewrite Ht). lia.
      * apply ticks_new_timers. lia.
  - intros id t Hid. rewrite ticks_old_timers; [done|]. apply Hok. by rewrite Hid.
  - revert c env Hok. induction n as [|n IH]; intros c env Hok; [done|].
    rewrite ticks_S, IH by (by apply playBeat_env_ok). apply playBeat_audio.
  - intros Hn. destruct n as [|n]; [lia|]. rewrite ticks_last. apply playBeat_audio.
Qed.

Lemma ticks_queue_deferred_stops_witness :
  let r := ticks 3 0 hat_channel initial_env in
  ∃ ids, NoDup ids ∧ length ids = 3
         ∧ ∀ id, id ∈ ids →
             timers initial_env !! id = None
             ∧ timers r.2 !! id = Some (stopper 0 (Channel.duration hat_channel)).
Proof.
  exact (proj1 (ticks_queue_deferred_stops 3 0 hat_channel initial_env initial_env_ok)).
Defined.

(** X12.  The deferred stop touches the Voice and nothing else.  When the
    timer that a firing of Channel [i]'s Voice left runs, it leaves the
    table; the other timers, the trace and the tempo stay; the pattern,
    cursor, step duration, event cache, handle and playback rate of every
    Channel stay; and the other Channels stay altogether. *)
Theorem forced_stop_only_touches_the_voice (st : State) (i : ref) (d : float) (id : nat) :
  timers (env_of st) !! id = Some (stopper i d) →
  let st' := step (Fire id) st in
  timers (env_of st') = delete id (timers (env_of st))
  ∧ next_id (env_of st') = next_id (env_of st)
  ∧ trace (env_of st') = trace (env_of st)
  ∧ Sequencer.get_bpm (sequencer_of st') = Sequencer.get_bpm (sequencer_of st)
  ∧ (λ c, (Channel.sequence c, Channel.beat c, Channel.duration c,
           Channel.events c, Channel.interval c, rate_of c))
      <$> Sequencer.channels (sequencer_of st')
    = (λ c, (Channel.sequence c, Channel.beat c, Channel.duration c,
             Channel.events c, Channel.interval c, rate_of c))
        <$> Sequencer.channels (sequencer_of st)
  ∧ ∀ j, j ≠ i → channel_at j st' = channel_at j st.
Proof.
  intros Hid st'. subst st'. simpl. unfold fire. rewrite Hid. simpl.
  set (st1 := {| sequencer_of := sequencer_of st;
                 env_of := {| timers := delete id (timers (env_of st));
                              next_id := next_id (env_of st);
                              trace := trace (env_of st) |} |}).
  assert (Henv : env_of (on_channel i
                   (λ c env, (Channel.with_sound (Sound.stop (Channel.sound c)) c, env)) st1)
                 = env_of st1).
  { rewrite on_channel_env. by destruct (channel_at i st1). }
  rewrite Henv. split_and!; try done.
  - by rewrite on_channel_bpm.
  - by rewrite on_channel_keeps.
  - intros j Hj. unfold channel_at, on_channel.
    destruct (Sequencer.channels (sequencer_of st1) !! i) as [c|]; [|done].
    simpl. by rewrite list_lookup_insert_ne.
Qed.

Lemma forced_stop_only_touches_the_voice_witness :
  let st := on_channel 0 (Channel.playBeat 0) initial_state in
  trace (env_of (step (Fire 1) st)) = trace (env_of st)
  ∧ timers (env_of (step (Fire 1) st)) = delete 1 (timers (env_of st)).
Proof.
  intros st.
  destruct (forced_stop_only_touches_the_voice st 0 125 1) as (Ht & _ & Htr & _).
  - reflexivity.
  - split; [exact Htr | exact Ht].
Defined.

(** ** The play button *)

Lemma step_Play_eq st :
  sequencer_of (step Play st) = (Sequencer.play (sequencer_of st) (env_of st)).1
  ∧ env_of (step Play st) = (Sequencer.play (sequencer_of st) (env_of st)).2.
Proof. simpl. by destruct (Sequencer.play (sequencer_of st) (env_of st)). Qed.

Lemma step_Stop_eq st :
  sequencer_of (step Stop st) = (Sequencer.stop (sequencer_of st) (env_of st)).1
  ∧ env_of (step Stop st) = (Sequencer.stop (sequencer_of st) (env_of st)).2.
Proof. simpl. by destruct (Sequencer.stop (sequencer_of st) (env_of st)). Qed.

(** An action other than [play] and [stop] leaves the handles alone... *)
Lemma step_keeps_handles a st :
  a ≠ Play → a ≠ Stop →
  handles (sequencer_of (step a st)) = handles (sequencer_of st).
Proof.
  intros Hp Hs. unfold handles. destruct a as [| |b|i|i l|i k v|id]; simpl; try done.
  - rewrite <- list_fmap_compose. apply list_fmap_ext. intros k c _. apply set_bpm_interval.
  - by apply on_channel_keeps.
  - rewrite (list_fmap_alter _ _ id); [apply list_alter_id; done|].
    apply Forall_forall. by intros c _.
  - rewrite (list_fmap_alter _ _ id); [apply list_alter_id; done|].
    apply Forall_forall. by intros c _.
  - apply fire_keeps; [apply playBeat_interval | done].
Qed.

(** ... and the repeating timers too. *)
Lemma step_keeps_repeating a st k t :
  a ≠ Play → a ≠ Stop → env_ok (env_of st) → repeating t = true →
  timers (env_of (step a st)) !! k = Some t ↔ timers (env_of st) !! k = Some t.
Proof.
  intros Hp Hs Hok Ht. destruct a as [| |b|i|i l|i j v|id]; simpl; try done.
  - rewrite on_channel_env. by destruct (channel_at i st).
  - unfold fire. destruct (timers (env_of st) !! id) as [tm|] eqn:Hid; [|done].
    set (st1 := if repeating tm then st
                else {| sequencer_of := sequencer_of st;
                        env_of := {| timers := delete id (timers (env_of st));
                                     next_id := next_id (env_of st);
                                     trace := trace (env_of st) |} |}).
    assert (H1 : timers (env_of st1) !! k = Some t ↔ timers (env_of st) !! k = Some t).
    { unfold st1. destruct (repeating tm) eqn:Hrep; [done|]. simpl.
      rewrite lookup_delete. case_decide as Hk; [|done]. subst k.
      rewrite Hid. split; [done|]. intros [= ->]. congruence. }
    assert (Hok1 : env_ok (env_of st1)).
    { unfold st1. destruct (repeating tm); [done|].
      apply (clearInterval_env_ok (Some id)), Hok. }
    rewrite <- H1. destruct (handler tm) as [i|i]; simpl; rewrite on_channel_env.
    + by destruct (channel_at i st1).
    + destruct (channel_at i st1) as [c|]; [|done].
      rewrite playBeat_timers, lookup_insert. case_decide as Hk; [|done]. subst k.
      rewrite (env_ok_none _ _ Hok1) by lia. split; [|done]. intros [= <-]. done.
Qed.

Lemma page_reachable_ok p : page_reachable p → page_ok p.
Proof.
  induction 1 as [args bpm|p _ IH|p _ IH|a p _ IH Hp Hs].
  - split_and!; simpl; try done. apply initial_env_ok.
  - destruct IH as (Hok & Hidle & Hplaying & Hlabel).
    unfold SequencerElement.play_click.
    destruct (SequencerElement.playing (ui_of p)) eqn:Hflag; cbn [fst snd].
    + (* the button said "stop": [stop] *)
      destruct (Hplaying eq_refl) as [Hrep _].
      destruct (step_Stop_eq (state_of p)) as [Hseq Henv].
      split_and!; cbn [ui_of state_of SequencerElement.playing SequencerElement.playButton];
        try done.
      * by apply step_env_ok.
      * intros _ id t Hid. rewrite Henv, stop_timers in Hid.
        case_bool_decide as Hh; [done|].
        destruct (repeating t) eqn:Ht; [|done]. exfalso. apply Hh.
        destruct (Hrep id t Hid Ht) as (i & Hi & _). by eapply list_elem_of_lookup_2.
    + (* the button said "play": [play] *)
      destruct (step_Play_eq (state_of p)) as [Hseq Henv].
      destruct (play_spec (sequencer_of (state_of p)) (env_of (state_of p)))
        as (Hcs & Hnew & Hold & Hnext & _).
      pose proof (step_env_ok Play _ Hok) as Hok'.
      split_and!; cbn [ui_of state_of SequencerElement.playing SequencerElement.playButton];
        try done.
      intros _. split.
      * intros id t Hid Ht.
        destruct (decide (id < next_id (env_of (state_of p)))) as [Hlt|Hge].
        { rewrite Henv, Hold in Hid by done. rewrite (Hidle eq_refl id t Hid) in Ht. done. }
        pose proof (Hok' id (mk_is_Some _ _ Hid)) as Hlt. rewrite Henv, Hnext in Hlt.
        set (k := id - next_id (env_of (state_of p))).
        destruct (lookup_lt_is_Some_2 (Sequencer.channels (sequencer_of (state_of p))) k)
          as [c Hc]; [unfold k; lia|].
        exists k. unfold handles. rewrite Hseq, list_lookup_fmap, Hcs, Hc. simpl.
        replace (next_id (env_of (state_of p)) + k) with id by (unfold k; lia).
        split; [done|]. specialize (Hnew k c Hc).
        replace (next_id (env_of (state_of p)) + k) with id in Hnew by (unfold k; lia).
        rewrite Henv, Hnew in Hid. by injection Hid as <-.
      * intros i h. unfold handles. rewrite Hseq, Henv, list_lookup_fmap, Hcs.
        destruct (Sequencer.channels (sequencer_of (state_of p)) !! i) as [c|] eqn:Hc;
          [|done].
        simpl. intros [= <-]. eexists _, _. split; [done|]. by apply Hnew.
  - destruct IH as (Hok & Hidle & Hplaying & Hlabel).
    assert (Hh : handles (sequencer_of (SequencerElement.clear_click (ui_of p) (state_of p)).2)
                 = handles (sequencer_of (state_of p))).
    { unfold handles. simpl. rewrite <- list_fmap_compose. by apply list_fmap_ext. }
    split_and!; cbn [ui_of state_of]; try done. by rewrite Hh.
  - destruct IH as (Hok & Hidle & Hplaying & Hlabel).
    split_and!; cbn [ui_of state_of]; try done.
    + by apply step_env_ok.
    + intros Hflag id t Hid. destruct (repeating t) eqn:Ht; [|done].
      apply (proj1 (step_keeps_repeating a _ id t Hp Hs Hok Ht)) in Hid.
      by rewrite (Hidle Hflag id t Hid) in Ht.
    + intros Hflag. destruct (Hplaying Hflag) as [Hrep Hall].
      rewrite step_keeps_handles by done. split.
      * intros id t Hid Ht.
        apply (proj1 (step_keeps_repeating a _ id t Hp Hs Hok Ht)) in Hid. by apply Hrep.
      * intros i h Hi. destruct (Hall i h Hi) as (id & d & -> & Hid).
        exists id, d. split; [done|].
        by apply (proj2 (step_keeps_repeating a _ id (ticker i d) Hp Hs Hok eq_refl)).
Qed.

(** X13.  The play button never starts a Channel twice.  In every state the
    page reaches through its buttons, its grid, its timers and tempo or
    pattern changes, but without a call of [play] or [stop] from elsewhere:
    a Channel has at most one pending timer that runs its [playBeat]; no
    such timer is pending while the button says "play"; every Channel has
    one while the button says "stop"; and the label of the button says
    which. *)
Theorem play_button_never_starts_twice (p : Page) :
  page_reachable p →
  let env := env_of (state_of p) in
  let playing := SequencerElement.playing (ui_of p) in
  (∀ i id1 id2 d1 d2,
     timers env !! id1 = Some (ticker i d1) → timers env !! id2 = Some (ticker i d2) →
     id1 = id2)
  ∧ (playing = false → ∀ id t, timers env !! id = Some t → repeating t = false)
  ∧ (playing = true →
     ∀ i, is_Some (channel_at i (state_of p)) → ∃ id d, timers env !! id = Some (ticker i d))
  ∧ SequencerElement.playButton (ui_of p) = (if playing then "stop" else "play").
Proof.
  intros Hp env playing. destruct (page_reachable_ok p Hp) as (Hok & Hidle & Hplaying & Hlabel).
  split_and!; [| done | | done].
  - intros i id1 id2 d1 d2 H1 H2. destruct playing eqn:Hflag.
    + destruct (Hplaying Hflag) as [Hrep _].
      destruct (Hrep id1 _ H1 eq_refl) as (i1 & Hi1 & [= <-]).
      destruct (Hrep id2 _ H2 eq_refl) as (i2 & Hi2 & [= <-]).
      congruence.
    + by pose proof (Hidle Hflag id1 _ H1).
  - intros Hflag i [c Hc]. destruct (Hplaying Hflag) as [_ Hall].
    destruct (Hall i (Channel.interval c)) as (id & d & _ & Hid); [|by eauto].
    unfold handles. rewrite list_lookup_fmap. unfold channel_at in Hc. by rewrite Hc.
Qed.

Lemma play_button_never_starts_twice_witness :
  let p0 := {| ui_of := SequencerElement.new;
               state_of := {| sequencer_of :=
                                Sequencer.new (construct <$> [(hat_sound, Some afrika_hat, None)])
                                              None;
                              env_of := initial_env |} |} in
  let p1 := {| ui_of := (SequencerElement.play_click (ui_of p0) (state_of p0)).1;
               state_of := (SequencerElement.play_click (ui_of p0) (state_of p0)).2 |} in
  SequencerElement.playButton (ui_of p1) = "stop"
  ∧ ∃ id d, timers (env_of (state_of p1)) !! id = Some (ticker 0 d).
Proof.
  intros p0 p1.
  destruct (play_button_never_starts_twice p1) as (_ & _ & Hall & Hlabel).
  - apply page_play_click, page_new.
  - split; [exact Hlabel|]. apply Hall; [reflexivity|]. by eexists.
Defined.

(** ** The grid and the clear button *)

Lemma array_set_in_range k v a : k < length a → array_set k v a = <[k := v]> a.
Proof. intros Hk. unfold array_set. by rewrite bool_decide_eq_true_2. Qed.

Lemma array_set_lookup k v a : array_set k v a !! k = Some v.
Proof.
  unfold array_set. case_bool_decide as Hk.
  - by apply list_lookup_insert_eq.
  - rewrite lookup_app_r by lia. rewrite lookup_app_r; rewrite length_replicate; [|lia].
    by replace (k - length a - (k - length a)) with 0 by lia.
Qed.

Lemma array_set_length k v a : length (array_set k v a) = length a `max` S k.
Proof.
  unfold array_set. case_bool_decide as Hk.
  - rewrite length_insert. lia.
  - rewrite !length_app, length_replicate. simpl. lia.
Qed.

Lemma array_set_other k v a j : j ≠ k → j < length a → array_set k v a !! j = a !! j.
Proof.
  intros Hj Hlt. unfold array_set. case_bool_decide as Hk.
  - by apply list_lookup_insert_ne.
  - by rewrite lookup_app_l.
Qed.

Lemma class_of_on_off k : BeatElement.class_of k 1 ≠ BeatElement.class_of k 0.
Proof.
  unfold BeatElement.class_of. simpl. intros H.
  apply (inj (String.app "beat ")) in H. apply (inj (String.app (pretty k))) in H.
  discriminate.
Qed.

Lemma toggled_bit z :
  (BeatElement.toggled z = 0 ∨ BeatElement.toggled z = 1)%Z
  ∧ Channel.truthy (Some (BeatElement.toggled z)) = negb (Channel.truthy (Some z)).
Proof. unfold BeatElement.toggled. destruct (Channel.truthy (Some z)); auto. Qed.

(** X14.  A click on a beat of the grid.  The element's cell becomes 1 when
    it was 0 (or any other falsy value) and 0 otherwise; that value is
    written into the cell of its Channel's pattern, the other cells and the
    other Channels stay, and the class the span gets says "on" exactly when
    the cell is now audible.  An element whose index is beyond the pattern
    (the pattern was replaced by a shorter one) makes the pattern grow up
    to its index. *)
Theorem beat_click_writes_the_cell (b : BeatElement.t) (s : Sequencer.t) (c : Channel.t) :
  Sequencer.channels s !! BeatElement.channel b = Some c →
  let r := BeatElement.click b s in
  let pattern := array_set (BeatElement.index b) (BeatElement.beat r.1) (Channel.sequence c) in
  (BeatElement.beat r.1 = 0 ∨ BeatElement.beat r.1 = 1)%Z
  ∧ Channel.truthy (Some (BeatElement.beat r.1)) = negb (Channel.truthy (Some (BeatElement.beat b)))
  ∧ Sequencer.channels r.2 !! BeatElement.channel b = Some (Channel.with_sequence pattern c)
  ∧ pattern !! BeatElement.index b = Some (BeatElement.beat r.1)
  ∧ length pattern = length (Channel.sequence c) `max` S (BeatElement.index b)
  ∧ (∀ k, k ≠ BeatElement.index b → k < length (Channel.sequence c) →
       pattern !! k = Channel.sequence c !! k)
  ∧ (∀ j, j ≠ BeatElement.channel b → Sequencer.channels r.2 !! j = Sequencer.channels s !! j)
  ∧ (Channel.truthy (pattern !! BeatElement.index b) = true
     ↔ BeatElement.className r.1 = BeatElement.class_of (BeatElement.index b) 1).
Proof.
  intros Hc r pattern. subst r pattern. cbn [BeatElement.click fst snd BeatElement.beat
    BeatElement.className].
  destruct (toggled_bit (BeatElement.beat b)) as [Hbit Hneg].
  split_and!; try done.
  - simpl. by rewrite list_lookup_alter_eq, Hc.
  - apply array_set_lookup.
  - apply array_set_length.
  - intros k Hk Hlt. by apply array_set_other.
  - intros j Hj. simpl. by rewrite list_lookup_alter_ne.
  - rewrite array_set_lookup. destruct Hbit as [-> | ->]; simpl.
    + split; [done|]. intros H. symmetry in H. by apply class_of_on_off in H.
    + done.
Qed.

Lemma beat_click_writes_the_cell_witness :
  let b := BeatElement.render 0 1 0 in
  Sequencer.channels (BeatElement.click b sequencer).2 !! 0
  = Some (Channel.with_sequence [1; 1; 1; 1; 1; 0; 1; 1; 1; 0; 1; 1; 1; 1; 1; 1]%Z hat_channel).
Proof.
  intros b.
  exact (proj1 (proj2 (proj2 (beat_click_writes_the_cell b sequencer hat_channel eq_refl)))).
Defined.

Lemma alter_fixed {A} (f : A → A) (l : list A) i x :
  l !! i = Some x → f x = x → alter f i l = l.
Proof.
  intros Hi Hx. apply list_eq. intros j. destruct (decide (i = j)) as [<-|Hne].
  - rewrite list_lookup_alter_eq, Hi. simpl. by rewrite Hx.
  - by rewrite list_lookup_alter_ne.
Qed.

(** X15.  Two clicks undo each other.  For an element that shows what its
    cell holds (its copy is the cell, a 0 or a 1, and its class is the one
    [render] gives), a second click puts the element and the sequencer back
    exactly as they were. *)
Theorem double_click_is_no_click (b : BeatElement.t) (s : Sequencer.t) (c : Channel.t) :
  Sequencer.channels s !! BeatElement.channel b = Some c →
  Channel.sequence c !! BeatElement.index b = Some (BeatElement.beat b) →
  (BeatElement.beat b = 0 ∨ BeatElement.beat b = 1)%Z →
  BeatElement.className b = BeatElement.class_of (BeatElement.index b) (BeatElement.beat b) →
  BeatElement.click (BeatElement.click b s).1 (BeatElement.click b s).2 = (b, s).
Proof.
  intros Hc Hcell Hbit Hclass. destruct b as [z k ch cls]. cbn in *. subst cls.
  assert (Hback : BeatElement.toggled (BeatElement.toggled z) = z)
    by (destruct Hbit as [-> | ->]; reflexivity).
  unfold BeatElement.click. cbn [fst snd BeatElement.beat BeatElement.index
    BeatElement.channel]. rewrite Hback. f_equal.
  destruct s as [cs bpm]. unfold set_cell. cbn. f_equal.
  rewrite list_alter_alter_eq. apply (alter_fixed _ _ _ c Hc).
  destruct c as [snd pattern cursor dur evs hdl]. unfold Channel.with_sequence. cbn in *.
  f_equal. pose proof (lookup_lt_Some _ _ _ Hcell) as Hlt.
  rewrite (array_set_in_range k _ pattern) by done.
  rewrite array_set_in_range by (by rewrite length_insert).
  rewrite list_insert_insert_eq. by apply list_insert_id.
Qed.

Lemma double_click_is_no_click_witness :
  let b := BeatElement.render 0 1 0 in
  BeatElement.click (BeatElement.click b sequencer).1 (BeatElement.click b sequencer).2
  = (b, sequencer).
Proof.
  intros b. apply (double_click_is_no_click b sequencer hat_channel); try reflexivity.
  by left.
Defined.

Lemma fire_all_silent id st :
  Forall (λ c, all_silent (Channel.sequence c)) (Sequencer.channels (sequencer_of st)) →
  Forall (λ c, all_silent (Channel.sequence c))
         (Sequencer.channels (sequencer_of (fire id st)))
  ∧ notifications (trace (env_of (fire id st))) = notifications (trace (env_of st)).
Proof.
  intros Hsil. split.
  - unfold fire. destruct (timers (env_of st) !! id) as [tm|]; [|done].
    destruct (handler tm) as [i|i]; simpl; apply on_channel_Forall.
    + by intros c e.
    + by destruct (repeating tm).
    + intros c e Hc. by rewrite playBeat_sequence.
    + by destruct (repeating tm).
  - unfold fire. destruct (timers (env_of st) !! id) as [tm|]; [|done].
    set (st1 := if repeating tm then st
                else {| sequencer_of := sequencer_of st;
                        env_of := {| timers := delete id (timers (env_of st));
                                     next_id := next_id (env_of st);
                                     trace := trace (env_of st) |} |}).
    assert (Htr : trace (env_of st1) = trace (env_of st))
      by (unfold st1; by destruct (repeating tm)).
    assert (Hsil1 : Forall (λ c, all_silent (Channel.sequence c))
                           (Sequencer.channels (sequencer_of st1)))
      by (unfold st1; by destruct (repeating tm)).
    rewrite <- Htr. destruct (handler tm) as [i|i]; simpl; rewrite on_channel_env.
    + by destruct (channel_at i st1).
    + destruct (channel_at i st1) as [c|] eqn:Hc; [|done].
      rewrite playBeat_silent.
      * apply (notifications_silent _ 1).
      * by apply (Forall_lookup_1 _ _ _ _ Hsil1 Hc).
Qed.

(** X16.  The clear button silences the page without stopping it.  It
    gives every Channel the pattern of 16 zeros and changes nothing else:
    the button states, the timers, the cursors and the handles stay, so a
    sequencer that was playing goes on ticking; and whatever timers run
    afterwards, no notification is emitted until a pattern is written
    again. *)
Theorem clear_button_silences_the_page
    (ui : SequencerElement.t) (st : State) (ids : list nat) :
  let r := SequencerElement.clear_click ui st in
  r.1 = ui
  ∧ env_of r.2 = env_of st
  ∧ Sequencer.channels (sequencer_of r.2) = Channel.clear <$> Sequencer.channels (sequencer_of st)
  ∧ Forall (λ c, Channel.sequence c = replicate 16 0%Z) (Sequencer.channels (sequencer_of r.2))
  ∧ (λ c, (Channel.beat c, Channel.interval c, Channel.duration c))
      <$> Sequencer.channels (sequencer_of r.2)
    = (λ c, (Channel.beat c, Channel.interval c, Channel.duration c))
        <$> Sequencer.channels (sequencer_of st)
  ∧ notifications (trace (env_of (run (Fire <$> ids) r.2)))
    = notifications (trace (env_of st)).
Proof.
  intros r. subst r. cbn [SequencerElement.clear_click fst snd sequencer_of env_of
    Sequencer.channels].
  split_and!; try done.
  - apply Forall_fmap, Forall_forall. by intros c _.
  - rewrite <- list_fmap_compose. by apply list_fmap_ext.
  - set (st0 := {| sequencer_of := _; env_of := env_of st |}).
    change (trace (env_of st)) with (trace (env_of st0)).
    assert (Hsil : Forall (λ c, all_silent (Channel.sequence c))
                          (Sequencer.channels (sequencer_of st0))).
    { simpl. apply Forall_fmap, Forall_forall. intros c _ k. apply empty_sequence_falsy. }
    clearbody st0. revert st0 Hsil. induction ids as [|id ids IH]; intros st0 Hsil; [done|].
    rewrite fmap_cons, run_cons. destruct (fire_all_silent id st0 Hsil) as [Hsil' Hn].
    simpl. rewrite IH by done. exact Hn.
Qed.

(** ** The tempo of a start *)

(** X17.  [play] starts every Channel at the sequencer's tempo.  In every
    state the page can reach, the timer that [play] starts for a Channel
    has the period [(60 / bpm) * (1000 / 4)] for the tempo [bpm] that
    [getTempo] returns at that moment: a tempo that was changed while the
    sequencer was playing is the period of the timers from the next start
    on. *)
Theorem play_uses_the_shared_tempo (st : State) (k : nat) :
  reachable st →
  is_Some (channel_at k st) →
  timers (env_of (step Play st)) !! (next_id (env_of st) + k)
  = Some (ticker k (60 / Sequencer.get_bpm (sequencer_of st) * (1000 / 4))%float).
Proof.
  intros Hreach [c Hc].
  destruct (step_Play_eq st) as [_ ->].
  destruct (play_spec (sequencer_of st) (env_of st)) as (_ & Hnew & _).
  rewrite (Hnew k c Hc). do 2 f_equal.
  pose proof (reachable_consistent st Hreach) as Hcons.
  by apply (Forall_lookup_1 _ _ _ _ Hcons Hc).
Qed.

Lemma play_uses_the_shared_tempo_witness :
  let st := run [Play; SetTempo 240; Stop] initial_state in
  timers (env_of (step Play st)) !! (next_id (env_of st) + 0)
  = Some (ticker 0 (60 / Sequencer.get_bpm (sequencer_of st) * (1000 / 4))%float).
Proof.
  intros st. apply (play_uses_the_shared_tempo st 0).
  - unfold st, run. cbn [foldl]. repeat apply reachable_step. apply initial_state_reachable.
  - by eexists.
Defined.
